(** * MediaDrop download queue manager (src/App.tsx)

    A shallow embedding of the queue manager of [App]: the URL classifier
    ([getFileExtension], [getMediaType], [generateFilename]), the queue
    store ([addMediaItem], [removeMediaItem], [clearCompleted]), the
    transfer engine ([downloadFile]), the batch loop ([downloadAll]) and
    the history log ([clearHistory] and the bounded push of
    [downloadFile]).

    Conventions of the model.
    - JavaScript strings are [string]s of ASCII characters.
    - A function that can throw returns a [completion]; React state and
      the effects of a handler are threaded through the monad [M].
    - [new URL(url).pathname] is a function of the platform. The
      definitions take it as the section variable [URL_pathname]
      ([None] when the constructor throws its [TypeError]);
      [whatwg_pathname] is an executable instance on a fragment of the
      URL standard, used for the concrete runs.
    - A JavaScript number that holds a byte count is a [Z]; the progress
      percentage [(received / total) * 100] is an exact rational [Q]
      (rounding to a double is monotone and keeps 0 and 100, so the order
      facts proved here are not affected by it). *)

From Stdlib Require Import List String Ascii Bool ZArith QArith Lia.
From Stdlib Require Import DecimalString Sorted.
Import ListNotations.

Local Open Scope string_scope.
Local Open Scope Z_scope.

(* ===================================================================== *)
(** ** Completions: normal return or a thrown error                       *)
(* ===================================================================== *)

Inductive js_error : Type :=
| TypeError          (* new URL(...) on a string that does not parse *)
| HttpError (status : Z)   (* throw new Error(`HTTP error! status: ...`) *)
| NetworkError       (* fetch(...) rejected *)
| StreamError.       (* reader.read() rejected *)

Inductive completion (A : Type) : Type :=
| Normal (a : A)
| Throw (e : js_error).
Arguments Normal {A} a.
Arguments Throw {A} e.

Definition cbind {A B} (c : completion A) (k : A -> completion B) : completion B :=
  match c with
  | Normal a => k a
  | Throw e => Throw e
  end.

(** [try { c } catch { h }] for pure computations. *)
Definition try_catch {A} (c : completion A) (h : js_error -> completion A) : completion A :=
  match c with
  | Normal a => Normal a
  | Throw e => h e
  end.

Declare Scope completion_scope.
Delimit Scope completion_scope with completion.
Notation "x <-- c ;; k" := (cbind c (fun x => k))
  (at level 61, c at next level, right associativity) : completion_scope.

(* ===================================================================== *)
(** ** JavaScript string operations used by the source                    *)
(* ===================================================================== *)

Module JS.

Definition ascii_eqb (a b : ascii) : bool := Ascii.eqb a b.

(** [s.split(c)] for a one-character separator: never the empty array. *)
Fixpoint split (c : ascii) (s : string) : list string :=
  match s with
  | EmptyString => [EmptyString]
  | String a s' =>
      if ascii_eqb a c then EmptyString :: split c s'
      else match split c s' with
           | [] => [String a EmptyString]
           | p :: ps => String a p :: ps
           end
  end.

(** [arr.pop()]: the last element, [undefined] on the empty array. *)
Fixpoint pop (l : list string) : option string :=
  match l with
  | [] => None
  | [x] => Some x
  | _ :: l' => pop l'
  end.

(** [s.includes(c)] for a one-character needle. *)
Fixpoint includes (s : string) (c : ascii) : bool :=
  match s with
  | EmptyString => false
  | String a s' => ascii_eqb a c || includes s' c
  end.

Definition lower_ascii (a : ascii) : ascii :=
  let n := nat_of_ascii a in
  if ((65 <=? n)%nat && (n <=? 90)%nat)%bool then ascii_of_nat (n + 32) else a.

(** [s.toLowerCase()] on ASCII text. *)
Fixpoint toLowerCase (s : string) : string :=
  match s with
  | EmptyString => EmptyString
  | String a s' => String (lower_ascii a) (toLowerCase s')
  end.

Definition is_empty (s : string) : bool :=
  match s with EmptyString => true | _ => false end.

(** [x || d] where [x] is a string or [undefined]: the empty string and
    [undefined] are falsy. *)
Definition or_else (x : option string) (d : string) : string :=
  match x with
  | Some s => if is_empty s then d else s
  | None => d
  end.

(** White space removed by [trim] (ASCII part): TAB, LF, VT, FF, CR,
    SPACE. *)
Definition is_space (a : ascii) : bool :=
  let n := nat_of_ascii a in
  ((9 <=? n)%nat && (n <=? 13)%nat)%bool || (n =? 32)%nat.

Fixpoint trimStart (s : string) : string :=
  match s with
  | EmptyString => EmptyString
  | String a s' => if is_space a then trimStart s' else s
  end.

(** Drops trailing white space: a character is kept when something
    that is kept follows it or it is no white space itself. *)
Fixpoint trimEnd (s : string) : string :=
  match s with
  | EmptyString => EmptyString
  | String a s' =>
      let t := trimEnd s' in
      if (is_empty t && is_space a)%bool then EmptyString else String a t
  end.

Definition trim (s : string) : string := trimEnd (trimStart s).

(** [n.toString()] for an integral number. *)
Definition toString (n : Z) : string := NilZero.string_of_int (Z.to_int n).

(** [s.startsWith(p)]. *)
Fixpoint startsWith (s p : string) : bool :=
  match p with
  | EmptyString => true
  | String b p' =>
      match s with
      | String a s' => ascii_eqb a b && startsWith s' p'
      | EmptyString => false
      end
  end.

End JS.

(* ===================================================================== *)
(** ** An executable instance of [new URL(url).pathname]                  *)
(* ===================================================================== *)

Module Whatwg.

Definition is_alpha (a : ascii) : bool :=
  let n := nat_of_ascii a in
  ((65 <=? n) && (n <=? 90) || (97 <=? n) && (n <=? 122))%nat%bool.

Definition is_digit (a : ascii) : bool :=
  let n := nat_of_ascii a in ((48 <=? n) && (n <=? 57))%nat%bool.

Definition is_scheme_char (a : ascii) : bool :=
  is_alpha a || is_digit a || JS.ascii_eqb a "+" || JS.ascii_eqb a "-"
  || JS.ascii_eqb a ".".

(** Reads [scheme ":"]: the scheme and what follows the colon. *)
Fixpoint scheme_tail (s : string) : option (string * string) :=
  match s with
  | EmptyString => None
  | String a s' =>
      if JS.ascii_eqb a ":" then Some (EmptyString, s')
      else if is_scheme_char a then
        match scheme_tail s' with
        | Some (sch, rest) => Some (String a sch, rest)
        | None => None
        end
      else None
  end.

Definition scheme (s : string) : option (string * string) :=
  match s with
  | EmptyString => None
  | String a s' =>
      if is_alpha a then
        match scheme_tail s' with
        | Some (sch, rest) => Some (JS.toLowerCase (String a sch), rest)
        | None => None
        end
      else None
  end.

Definition is_slash (special : bool) (a : ascii) : bool :=
  JS.ascii_eqb a "/" || (special && JS.ascii_eqb a "\").

Definition ends_path (a : ascii) : bool :=
  JS.ascii_eqb a "?" || JS.ascii_eqb a "#".

Fixpoint skip_slashes (s : string) : string :=
  match s with
  | String a s' => if is_slash true a then skip_slashes s' else s
  | EmptyString => EmptyString
  end.

(** Splits off the authority: up to the first slash, [?] or [#]. *)
Fixpoint authority (special : bool) (s : string) : string * string :=
  match s with
  | EmptyString => (EmptyString, EmptyString)
  | String a s' =>
      if is_slash special a || ends_path a then (EmptyString, s)
      else let (h, r) := authority special s' in (String a h, r)
  end.

(** The path: up to the query or the fragment; in a special URL a
    backslash is a slash. *)
Fixpoint path (special : bool) (s : string) : string :=
  match s with
  | EmptyString => EmptyString
  | String a s' =>
      if ends_path a then EmptyString
      else String (if is_slash special a then "/"%char else a) (path special s')
  end.

Definition special_schemes : list string := ["http"; "https"; "ftp"; "ws"; "wss"].

Definition is_special (sch : string) : bool :=
  existsb (String.eqb sch) special_schemes.

(** [new URL(url).pathname] without a base URL, on absolute URLs whose
    host and path need no normalisation (no percent-encoding, no dot
    segments, no port or credentials check).  A string without a scheme
    does not parse; a special URL needs a host; its empty path is ["/"]. *)
Definition whatwg_pathname (url : string) : option string :=
  match scheme url with
  | None => None
  | Some (sch, rest) =>
      if is_special sch then
        let (host, tail) := authority true (skip_slashes rest) in
        if JS.is_empty host then None
        else Some (JS.or_else (Some (path true tail)) "/")
      else if JS.startsWith rest "//" then
        let (_, tail) := authority false (substring 2 (String.length rest - 2) rest) in
        Some (path false tail)
      else Some (path false rest)
  end.

End Whatwg.


(* ===================================================================== *)
(** ** Data model                                                         *)
(* ===================================================================== *)

Inductive MediaType : Type := image | video.

Inductive Status : Type := pending | downloading | completed | error.

Definition Status_eqb (a b : Status) : bool :=
  match a, b with
  | pending, pending | downloading, downloading
  | completed, completed | error, error => true
  | _, _ => false
  end.

(** interface MediaItem *)
Module MediaItem.
Record t : Type := mk {
  id : string;
  url : string;
  type : MediaType;
  filename : string;
  size : option string;
  status : Status;
  progress : option Q;
  downloadUrl : option string
}.

(** [{ ...i, status: s }] *)
Definition with_status (i : t) (s : Status) : t :=
  mk (id i) (url i) (type i) (filename i) (size i) s (progress i) (downloadUrl i).

(** [{ ...i, progress: p }] *)
Definition with_progress (i : t) (p : Q) : t :=
  mk (id i) (url i) (type i) (filename i) (size i) (status i) (Some p) (downloadUrl i).
End MediaItem.

(** interface DownloadHistory; [downloadedAt] is the time value of the
    [Date]. *)
Module DownloadHistory.
Record t : Type := mk {
  id : string;
  filename : string;
  url : string;
  type : MediaType;
  downloadedAt : Z
}.
End DownloadHistory.

(** The two [useState] cells the queue manager works on. *)
Record AppState : Type := mkState {
  mediaItems : list MediaItem.t;
  downloadHistory : list DownloadHistory.t
}.

Definition initialState : AppState := mkState [] [].

(* ===================================================================== *)
(** ** Effects                                                            *)
(* ===================================================================== *)

(** What a handler does to the outside, in the order it does it. *)
Inductive event : Type :=
| SetMediaItems (items : list MediaItem.t)        (* the sequence after the update *)
| SetDownloadHistory (h : list DownloadHistory.t) (* the log after the update *)
| Fetch (url : string)
| Save (filename : string) (payload : list Byte.byte)  (* link.download, link.click() *)
| ConsoleError (e : js_error)
| Timeout (ms : Z).

Record world : Type := mkWorld {
  state : AppState;
  log : list event
}.

(** State is kept when an exception is thrown. *)
Definition M (A : Type) : Type := world -> completion A * world.

Definition ret {A} (a : A) : M A := fun w => (Normal a, w).

Definition bind {A B} (m : M A) (k : A -> M B) : M B :=
  fun w => match m w with
           | (Normal a, w') => k a w'
           | (Throw e, w') => (Throw e, w')
           end.

Definition throw {A} (e : js_error) : M A := fun w => (Throw e, w).

Definition lift {A} (c : completion A) : M A := fun w => (c, w).

(** [try { body } catch (e) { handler }] *)
Definition try_catchM {A} (body : M A) (handler : js_error -> M A) : M A :=
  fun w => match body w with
           | (Normal a, w') => (Normal a, w')
           | (Throw e, w') => handler e w'
           end.

Declare Scope M_scope.
Delimit Scope M_scope with M.
Notation "x <- c ;; k" := (bind c (fun x => k))
  (at level 61, c at next level, right associativity) : M_scope.
Notation "c ;; k" := (bind c (fun _ => k))
  (at level 61, right associativity) : M_scope.

Definition emit (e : event) : M unit :=
  fun w => (Normal tt, mkWorld (state w) (log w ++ [e])%list).

(** [setMediaItems(prev => f(prev))] *)
Definition setMediaItems (f : list MediaItem.t -> list MediaItem.t) : M unit :=
  fun w =>
    let items := f (mediaItems (state w)) in
    (Normal tt,
     mkWorld (mkState items (downloadHistory (state w)))
             (log w ++ [SetMediaItems items])%list).

(** [setDownloadHistory(prev => f(prev))] *)
Definition setDownloadHistory (f : list DownloadHistory.t -> list DownloadHistory.t) : M unit :=
  fun w =>
    let h := f (downloadHistory (state w)) in
    (Normal tt,
     mkWorld (mkState (mediaItems (state w)) h)
             (log w ++ [SetDownloadHistory h])%list).

(** [prev.map(i => i.id === id ? f(i) : i)] *)
Definition update_by_id (id : string) (f : MediaItem.t -> MediaItem.t)
  (prev : list MediaItem.t) : list MediaItem.t :=
  map (fun i => if String.eqb (MediaItem.id i) id then f i else i) prev.

(* ===================================================================== *)
(** ** The transport, as [downloadFile] consumes it                       *)
(* ===================================================================== *)

Inductive read_end : Type :=
| EndOfStream     (* reader.read() resolves with done *)
| ReadRejects.    (* reader.read() rejects *)

(** The chunks [reader.read()] yields, then how the stream ends. *)
Record body_stream : Type := mkBody {
  yields : list (list Byte.byte);
  ending : read_end
}.

Record response : Type := mkResponse {
  status_code : Z;
  content_length : option string;      (* headers.get('content-length') *)
  body : option body_stream            (* response.body, possibly null *)
}.

(** [response.ok] *)
Definition ok (r : response) : bool :=
  (200 <=? status_code r) && (status_code r <=? 299).

Inductive fetch_outcome : Type :=
| Rejected
| Resolved (r : response).

(** What one run of [downloadFile] meets: the outcome of [fetch] and the
    two clock readings, [Date.now()] and [new Date()]. *)
Record run_env : Type := mkEnv {
  fetched : fetch_outcome;
  dateNow : Z;
  newDate : Z
}.

Definition digit_value (a : ascii) : Z := Z.of_nat (nat_of_ascii a) - 48.

(** The value of the longest prefix of decimal digits. *)
Fixpoint leading_digits (acc : Z) (s : string) : Z :=
  match s with
  | String a s' =>
      if Whatwg.is_digit a then leading_digits (10 * acc + digit_value a) s' else acc
  | EmptyString => acc
  end.

Definition starts_with_digit (s : string) : bool :=
  match s with
  | String a _ => Whatwg.is_digit a
  | EmptyString => false
  end.

(** [parseInt(s, 10)]; [None] is [NaN]. *)
Definition parseInt (s : string) : option Z :=
  let s1 := JS.trimStart s in
  let (neg, s2) :=
    match s1 with
    | String "-" r => (true, r)
    | String "+" r => (false, r)
    | _ => (false, s1)
    end in
  if starts_with_digit s2
  then Some (if neg : bool then - leading_digits 0 s2 else leading_digits 0 s2)
  else None.

(** [contentLength ? parseInt(contentLength, 10) : 0] *)
Definition total_of (contentLength : option string) : option Z :=
  match contentLength with
  | Some s => if JS.is_empty s then Some 0 else parseInt s
  | None => Some 0
  end.

(** [total > 0]; a comparison with [NaN] is false. *)
Definition positive (total : option Z) : bool :=
  match total with
  | Some t => 0 <? t
  | None => false
  end.

(** [(received / total) * 100], in lowest terms. *)
Definition percentage (received total : Z) : Q :=
  Qred (inject_Z received / inject_Z total * 100).

Definition chunk_length (value : list Byte.byte) : Z := Z.of_nat (List.length value).

(* ===================================================================== *)
(** ** Sample data for the concrete runs                                  *)
(* ===================================================================== *)

Module Sample.

Definition bytes (n : nat) : list Byte.byte := repeat Byte.x00 n.

Definition itemA : MediaItem.t :=
  MediaItem.mk "1" "https://x.test/a.png" image "a.png" None pending None None.
Definition itemB : MediaItem.t :=
  MediaItem.mk "2" "https://x.test/b.mp4" video "b.mp4" None downloading (Some 0%Q) None.
Definition itemC : MediaItem.t :=
  MediaItem.mk "3" "https://x.test/c.png" image "c.png" None pending None None.

(** [A(pending), B(downloading), C(pending)] and an empty history. *)
Definition store : AppState := mkState [itemA; itemB; itemC] [].

(** 200, ten bytes declared, delivered as 4 + 6. *)
Definition env_ok : run_env :=
  mkEnv (Resolved (mkResponse 200 (Some "10")
                     (Some (mkBody [bytes 4; bytes 6] EndOfStream)))) 1000 1001.

(** 404. *)
Definition env_404 : run_env :=
  mkEnv (Resolved (mkResponse 404 None None)) 2000 2001.

(** 200, ten bytes declared, the read rejects after the first 4. *)
Definition env_broken : run_env :=
  mkEnv (Resolved (mkResponse 200 (Some "10")
                     (Some (mkBody [bytes 4] ReadRejects)))) 3000 3001.

(** 200, ten bytes declared, twenty delivered (a body that the transport
    decompresses is longer than its length header says). *)
Definition env_longer : run_env :=
  mkEnv (Resolved (mkResponse 200 (Some "10")
                     (Some (mkBody [bytes 20] EndOfStream)))) 4000 4001.

(** The first transfer succeeds, all later ones fail. *)
Definition envs (k : nat) : run_env :=
  match k with
  | O => env_ok
  | _ => env_404
  end.

(** Sixty successful downloads, the [k]-th at time [k]. *)
Definition sixty_runs : list (run_env * MediaItem.t) :=
  map (fun k =>
         let t := Z.of_nat k in
         (mkEnv (Resolved (mkResponse 200 None None)) t t,
          MediaItem.mk (JS.toString t) "https://x.test/a.png" image "a.png"
            None pending None None))
      (seq 0 60).

(** A completed item, and a queue of a pending and a completed item. *)
Definition itemD : MediaItem.t :=
  MediaItem.mk "4" "https://x.test/d.png" image "d.png" None completed (Some 100%Q) None.
Definition queue_with_completed : AppState := mkState [itemA; itemD] [].

(** An item that is in no sample queue. *)
Definition itemGone : MediaItem.t :=
  MediaItem.mk "9" "https://x.test/gone.png" image "gone.png" None pending None None.

End Sample.

(* ===================================================================== *)
(** ** The component                                                      *)
(* ===================================================================== *)

Section App.

(** [new URL(url).pathname]; [None] when [new URL(url)] throws. *)
Variable URL_pathname : string -> option string.

Definition new_URL_pathname (url : string) : completion string :=
  match URL_pathname url with
  | Some path => Normal path
  | None => Throw TypeError
  end.

Local Open Scope completion_scope.

(** [getFileExtension], lines 33-36. *)
Definition getFileExtension (url : string) : completion string :=
  path <-- new_URL_pathname url ;;
  Normal (JS.or_else (option_map JS.toLowerCase (JS.pop (JS.split "." path))) "").

Definition imageExts : list string := ["jpg"; "jpeg"; "png"; "gif"; "webp"; "svg"; "bmp"].
Definition videoExts : list string := ["mp4"; "webm"; "avi"; "mov"; "wmv"; "flv"; "mkv"].

(** [arr.includes(x)] on strings. *)
Definition includes (l : list string) (x : string) : bool := existsb (String.eqb x) l.

(** [getMediaType], lines 38-48. *)
Definition getMediaType (url : string) : completion MediaType :=
  ext <-- getFileExtension url ;;
  if includes imageExts ext then Normal image
  else if includes videoExts ext then Normal video
  else Normal image.

(** [generateFilename], lines 50-59; [now] is the reading of [Date.now()]
    in the handler. *)
Definition generateFilename (now : Z) (url : string) : completion string :=
  try_catch
    (path <-- new_URL_pathname url ;;
     let filename := JS.or_else (JS.pop (JS.split "/" path)) "download" in
     if JS.includes filename "." then Normal filename
     else ext <-- getFileExtension url ;; Normal (filename ++ "." ++ ext)%string)
    (fun _ =>
       ext <-- getFileExtension url ;;
       Normal ("download_" ++ JS.toString now ++ "." ++ ext)%string).

Local Close Scope completion_scope.
Local Open Scope M_scope.

(** [addMediaItem], lines 61-74, as called by the render of the current
    state: the [mediaItems] its duplicate test reads is the queue of
    [state w] (see [addMediaItem_from] for a call by an earlier render).
    [now] is the [Date.now()] of the id, [now'] the one
    [generateFilename] would read. *)
Definition addMediaItem (now now' : Z) (url : string) : M unit :=
  fun w =>
    let trimmedUrl := JS.trim url in
    if JS.is_empty trimmedUrl
       || existsb (fun item => String.eqb (MediaItem.url item) trimmedUrl)
                  (mediaItems (state w))
    then ret tt w
    else
      (ty <- lift (getMediaType trimmedUrl) ;;
       fn <- lift (generateFilename now' trimmedUrl) ;;
       let newItem :=
         MediaItem.mk (JS.toString now) trimmedUrl ty fn None pending None None in
       setMediaItems (fun prev => (prev ++ [newItem])%list)) w.

(** [addMediaItem], lines 61-74, as the callback that the render of the
    queue [rendered] created ([useCallback] with [mediaItems] as its
    dependency): the duplicate test reads [rendered], the append works on
    the queue at the time of the update ([prev]). *)
Definition addMediaItem_from (rendered : list MediaItem.t) (now now' : Z) (url : string)
  : M unit :=
  let trimmedUrl := JS.trim url in
  if JS.is_empty trimmedUrl
     || existsb (fun item => String.eqb (MediaItem.url item) trimmedUrl) rendered
  then ret tt
  else
    ty <- lift (getMediaType trimmedUrl) ;;
    fn <- lift (generateFilename now' trimmedUrl) ;;
    let newItem :=
      MediaItem.mk (JS.toString now) trimmedUrl ty fn None pending None None in
    setMediaItems (fun prev => (prev ++ [newItem])%list).

(** [removeMediaItem], lines 76-78. *)
Definition removeMediaItem (id : string) : M unit :=
  setMediaItems (filter (fun item => negb (String.eqb (MediaItem.id item) id))).

(** The [while (true)] loop of lines 147-160 over what the reader yields;
    returns [chunks]. *)
Fixpoint read_loop (id : string) (total : option Z) (received : Z)
  (acc : list (list Byte.byte)) (cs : list (list Byte.byte)) (e : read_end)
  : M (list (list Byte.byte)) :=
  match cs with
  | [] =>
      match e with
      | EndOfStream => ret acc
      | ReadRejects => throw StreamError
      end
  | value :: cs' =>
      let acc' := (acc ++ [value])%list in
      let received' := received + chunk_length value in
      (if positive total
       then setMediaItems
              (update_by_id id (fun i =>
                 MediaItem.with_progress i
                   (percentage received' (match total with Some t => t | None => 0 end))))
       else ret tt) ;;
      read_loop id total received' acc' cs' e
  end.

(** [await fetch(item.url)] *)
Definition fetch (env : run_env) (url : string) : M response :=
  emit (Fetch url) ;;
  match fetched env with
  | Rejected => throw NetworkError
  | Resolved r => ret r
  end.

(** [downloadFile], lines 130-195. *)
Definition downloadFile (env : run_env) (item : MediaItem.t) : M unit :=
  let id := MediaItem.id item in
  setMediaItems (update_by_id id (fun i =>
    MediaItem.with_progress (MediaItem.with_status i downloading) 0)) ;;
  try_catchM
    (response <- fetch env (MediaItem.url item) ;;
     (if negb (ok response) then throw (HttpError (status_code response)) else ret tt) ;;
     let reader := body response in
     let total := total_of (content_length response) in
     chunks <- match reader with
               | Some b => read_loop id total 0 [] (yields b) (ending b)
               | None => ret []
               end ;;
     emit (Save (MediaItem.filename item) (List.concat chunks)) ;;
     setMediaItems (update_by_id id (fun i =>
       MediaItem.with_progress (MediaItem.with_status i completed) 100)) ;;
     let historyItem :=
       DownloadHistory.mk (JS.toString (dateNow env)) (MediaItem.filename item)
         (MediaItem.url item) (MediaItem.type item) (newDate env) in
     setDownloadHistory (fun prev => historyItem :: firstn 49 prev))
    (fun e =>
       emit (ConsoleError e) ;;
       setMediaItems (update_by_id id (fun i => MediaItem.with_status i error))).

(** The [for ... of] loop of [downloadAll]; the [k]-th run meets
    [envs k]. *)
Fixpoint download_each (envs : nat -> run_env) (k : nat) (items : list MediaItem.t)
  : M unit :=
  match items with
  | [] => ret tt
  | item :: rest =>
      downloadFile (envs k) item ;;
      emit (Timeout 500) ;;
      download_each envs (S k) rest
  end.

(** [downloadAll], lines 197-204. *)
Definition downloadAll (envs : nat -> run_env) : M unit :=
  fun w =>
    let pendingItems :=
      filter (fun item => Status_eqb (MediaItem.status item) pending)
             (mediaItems (state w)) in
    download_each envs 0 pendingItems w.

(** [clearCompleted], lines 206-208. *)
Definition clearCompleted : M unit :=
  setMediaItems
    (filter (fun item => negb (Status_eqb (MediaItem.status item) completed))).

(** [clearHistory], lines 210-212. *)
Definition clearHistory : M unit :=
  setDownloadHistory (fun _ => []).

(** The commands the view can issue on the queue manager. *)
Inductive command : Type :=
| AddMediaItem (now now' : Z) (url : string)
| RemoveMediaItem (id : string)
| DownloadFile (env : run_env) (item : MediaItem.t)
| DownloadAll (envs : nat -> run_env)
| ClearCompleted
| ClearHistory.

Definition exec (c : command) : M unit :=
  match c with
  | AddMediaItem now now' url => addMediaItem now now' url
  | RemoveMediaItem id => removeMediaItem id
  | DownloadFile env item => downloadFile env item
  | DownloadAll envs => downloadAll envs
  | ClearCompleted => clearCompleted
  | ClearHistory => clearHistory
  end.

(** Running a handler from a state, with an empty log. *)
Definition run {A} (m : M A) (s : AppState) : completion A * world :=
  m (mkWorld s []).

Definition step (c : command) (s : AppState) : AppState :=
  state (snd (run (exec c) s)).

(** The states the commands lead to when each is issued by the render of
    the state it starts from and runs to its end before the next one is
    issued.  States met while a download is suspended at an [await] are
    not among them. *)
Inductive reachable : AppState -> Prop :=
| reachable_init : reachable initialState
| reachable_step c s : reachable s -> reachable (step c s).

(** The [useState] cells of the input form. *)
Record InputState : Type := mkInput {
  urlInput : string;
  dragActive : bool
}.

(** [text && (text.startsWith('http://') || text.startsWith('https://'))],
    the guard of [handleDrop] and [handlePaste]. *)
Definition looks_like_url (text : string) : bool :=
  negb (JS.is_empty text)
  && (JS.startsWith text "http://" || JS.startsWith text "https://").


(** [handleDrag], lines 88-96; [type] is [e.type]. *)
Definition handleDrag (type : string) (ui : InputState) : InputState :=
  if String.eqb type "dragenter" || String.eqb type "dragover"
  then mkInput (urlInput ui) true
  else if String.eqb type "dragleave" then mkInput (urlInput ui) false
  else ui.

(** [handleDrop], lines 98-107; [text] is
    [e.dataTransfer.getData('text')]. *)
Definition handleDrop (now now' : Z) (text : string) (ui : InputState) (w : world)
  : completion unit * (InputState * world) :=
  let ui' := mkInput (urlInput ui) false in
  if looks_like_url text then
    match addMediaItem now now' text w with
    | (c, w') => (c, (ui', w'))
    end
  else (Normal tt, (ui', w)).



(* ===================================================================== *)
(** ** Specification-side definitions                                     *)
(* ===================================================================== *)

(** The text after the last occurrence of [c]; the whole string when [c]
    does not occur. *)
Fixpoint after_last (c : ascii) (s : string) : string :=
  match s with
  | EmptyString => EmptyString
  | String a s' =>
      if JS.includes s' c then after_last c s'
      else if JS.ascii_eqb a c then s' else s
  end.

(** What the specification calls the extension of a path: the text after
    its last dot, in lower case. *)
Definition path_extension (path : string) : string :=
  JS.toLowerCase (after_last "." path).

(** The last segment of a path. *)
Definition last_segment (path : string) : string := after_last "/" path.

(** The extension of the last segment of a path, in lower case; [None]
    when that segment has no dot. *)
Definition segment_extension (path : string) : option string :=
  let segment := last_segment path in
  if JS.includes segment "."
  then Some (JS.toLowerCase (after_last "." segment))
  else None.

(** The three record updates of [downloadFile]. *)
Definition start_item (i : MediaItem.t) : MediaItem.t :=
  MediaItem.with_progress (MediaItem.with_status i downloading) 0.
Definition complete_item (i : MediaItem.t) : MediaItem.t :=
  MediaItem.with_progress (MediaItem.with_status i completed) 100.
Definition fail_item (i : MediaItem.t) : MediaItem.t :=
  MediaItem.with_status i error.
Definition set_progress (id : string) (p : Q) : list MediaItem.t -> list MediaItem.t :=
  update_by_id id (fun i => MediaItem.with_progress i p).

(** The percentages the read loop pushes, chunk after chunk. *)
Fixpoint progress_values (total : option Z) (received : Z) (cs : list (list Byte.byte))
  : list Q :=
  match cs with
  | [] => []
  | value :: cs' =>
      let received' := received + chunk_length value in
      if positive total
      then percentage received' (match total with Some t => t | None => 0 end)
             :: progress_values total received' cs'
      else progress_values total received' cs'
  end.

(** The successive item sequences these pushes commit. *)
Fixpoint snapshots (id : string) (ps : list Q) (items : list MediaItem.t)
  : list (list MediaItem.t) :=
  match ps with
  | [] => []
  | p :: ps' =>
      let items' := set_progress id p items in
      items' :: snapshots id ps' items'
  end.

(** How the transfer of a run ends: with the chunks, or with the error
    thrown inside the [try]. *)
Definition transfer_result (env : run_env) : completion (list (list Byte.byte)) :=
  match fetched env with
  | Rejected => Throw NetworkError
  | Resolved r =>
      if ok r then
        match body r with
        | None => Normal []
        | Some b =>
            match ending b with
            | EndOfStream => Normal (yields b)
            | ReadRejects => Throw StreamError
            end
        end
      else Throw (HttpError (status_code r))
  end.

Definition transfer_succeeds (env : run_env) : bool :=
  match transfer_result env with
  | Normal _ => true
  | Throw _ => false
  end.

(** The declared total of a run, when a response arrived with a success
    status. *)
Definition declared_total (env : run_env) : option Z :=
  match fetched env with
  | Rejected => Some 0
  | Resolved r => if ok r then total_of (content_length r) else Some 0
  end.

Definition delivered (env : run_env) : list (list Byte.byte) :=
  match fetched env with
  | Rejected => []
  | Resolved r =>
      if ok r then match body r with Some b => yields b | None => [] end else []
  end.

Definition transfer_progress (env : run_env) : list Q :=
  progress_values (declared_total env) 0 (delivered env).

Definition history_entry (env : run_env) (item : MediaItem.t) : DownloadHistory.t :=
  DownloadHistory.mk (JS.toString (dateNow env)) (MediaItem.filename item)
    (MediaItem.url item) (MediaItem.type item) (newDate env).

(** The history push of line 187. *)
Definition bounded_push (h : DownloadHistory.t) (prev : list DownloadHistory.t)
  : list DownloadHistory.t :=
  h :: firstn 49 prev.

(** The world a run of [downloadFile] leaves, in closed form. *)
Definition after_run (env : run_env) (item : MediaItem.t) (w : world) : world :=
  let id := MediaItem.id item in
  let items1 := update_by_id id start_item (mediaItems (state w)) in
  let snaps := snapshots id (transfer_progress env) items1 in
  let items2 := last snaps items1 in
  let h := downloadHistory (state w) in
  match transfer_result env with
  | Normal chunks =>
      let items3 := update_by_id id complete_item items2 in
      let h' := bounded_push (history_entry env item) h in
      mkWorld (mkState items3 h')
        (log w ++ [SetMediaItems items1; Fetch (MediaItem.url item)]
           ++ map SetMediaItems snaps
           ++ [Save (MediaItem.filename item) (List.concat chunks);
               SetMediaItems items3; SetDownloadHistory h'])%list
  | Throw e =>
      let items3 := update_by_id id fail_item items2 in
      mkWorld (mkState items3 h)
        (log w ++ [SetMediaItems items1; Fetch (MediaItem.url item)]
           ++ map SetMediaItems snaps
           ++ [ConsoleError e; SetMediaItems items3])%list
  end.

(** [mediaItems.some(item => item.url === url)] *)
Definition already_queued (url : string) (items : list MediaItem.t) : bool :=
  existsb (fun item => String.eqb (MediaItem.url item) url) items.

(** The store's entry for an id. *)
Definition lookup (id : string) (items : list MediaItem.t) : option MediaItem.t :=
  find (fun i => String.eqb (MediaItem.id i) id) items.

(** The item sequences committed by [setMediaItems], in order. *)
Fixpoint committed (l : list event) : list (list MediaItem.t) :=
  match l with
  | [] => []
  | SetMediaItems items :: l' => items :: committed l'
  | _ :: l' => committed l'
  end.

(** The successive records of one item over a list of item sequences. *)
Definition item_trace (id : string) (snaps : list (list MediaItem.t))
  : list MediaItem.t :=
  flat_map (fun items => match lookup id items with
                         | Some i => [i]
                         | None => []
                         end) snaps.

(** The progress values an item shows while its status is downloading. *)
Definition downloading_progress (tr : list MediaItem.t) : list Q :=
  flat_map (fun i => match MediaItem.status i, MediaItem.progress i with
                     | downloading, Some p => [p]
                     | _, _ => []
                     end) tr.

(** The number of pushes to the history log. *)
Fixpoint history_pushes (l : list event) : nat :=
  match l with
  | [] => O
  | SetDownloadHistory _ :: l' => S (history_pushes l')
  | _ :: l' => history_pushes l'
  end.

Definition total_bytes (cs : list (list Byte.byte)) : Z :=
  fold_right (fun value acc => chunk_length value + acc) 0 cs.

(** The record of the item after its progress updates. *)
Definition progressed (i : MediaItem.t) (ps : list Q) : MediaItem.t :=
  match ps with
  | [] => i
  | _ => MediaItem.with_progress i (last ps 0%Q)
  end.

(** The three ways a transfer fails inside the [try] block. *)
Inductive transfer_fails (env : run_env) : Prop :=
| fails_network : fetched env = Rejected -> transfer_fails env
| fails_status r : fetched env = Resolved r -> ok r = false -> transfer_fails env
| fails_read r b :
    fetched env = Resolved r -> ok r = true -> body r = Some b ->
    ending b = ReadRejects -> transfer_fails env.

(** The response's length header gives no total: it is absent, or
    [parseInt] finds no number in it. *)
Definition total_unknown (env : run_env) : Prop :=
  forall r, fetched env = Resolved r ->
    content_length r = None
    \/ exists s, content_length r = Some s /\ parseInt s = None.

Definition delayed (w : world) : world :=
  mkWorld (state w) (log w ++ [Timeout 500])%list.

(** The world the loop of [downloadAll] leaves. *)
Fixpoint after_batch (envs : nat -> run_env) (k : nat) (items : list MediaItem.t)
  (w : world) : world :=
  match items with
  | [] => w
  | item :: rest => after_batch envs (S k) rest (delayed (after_run (envs k) item w))
  end.

(** The log [l'] comes from [l] by zero or more bounded pushes. *)
Inductive bounded_appends : list DownloadHistory.t -> list DownloadHistory.t -> Prop :=
| appends_none l : bounded_appends l l
| appends_push h l l' : bounded_appends (bounded_push h l) l' -> bounded_appends l l'.

(** A sequence of single downloads, one command after the other. *)
Definition run_downloads (runs : list (run_env * MediaItem.t)) (s : AppState) : AppState :=
  fold_left (fun s r => step (DownloadFile (fst r) (snd r)) s) runs s.

(** The urls fetched and the delays awaited, in order. *)
Fixpoint fetches (l : list event) : list string :=
  match l with
  | [] => []
  | Fetch url :: l' => url :: fetches l'
  | _ :: l' => fetches l'
  end.

Fixpoint delays (l : list event) : list Z :=
  match l with
  | [] => []
  | Timeout ms :: l' => ms :: delays l'
  | _ :: l' => delays l'
  end.

Definition terminal (st : Status) : Prop := st = completed \/ st = error.

(** The record a run leaves for the item it ran. *)
Definition finish (env : run_env) (i : MediaItem.t) : MediaItem.t :=
  (if transfer_succeeds env then complete_item else fail_item)
    (progressed (start_item i) (transfer_progress env)).


(** What the runs of a batch make of one record of the store. *)
Fixpoint apply_runs (envs : nat -> run_env) (k : nat) (pend : list MediaItem.t)
  (i : MediaItem.t) : MediaItem.t :=
  match pend with
  | [] => i
  | p :: rest =>
      apply_runs envs (S k) rest
        (if String.eqb (MediaItem.id i) (MediaItem.id p) then finish (envs k) i else i)
  end.

(** An item at rest: pending without progress, completed at 100, or in
    error with the progress it had; never downloading. *)
Definition settled (i : MediaItem.t) : Prop :=
  match MediaItem.status i with
  | pending => MediaItem.progress i = None
  | downloading => False
  | completed => MediaItem.progress i = Some 100%Q
  | error => exists p, MediaItem.progress i = Some p
  end.

(** The fields of an item that are computed from its url when it is
    added. *)
Definition derived (i : MediaItem.t) : Prop :=
  JS.trim (MediaItem.url i) = MediaItem.url i
  /\ MediaItem.url i <> ""
  /\ (exists path, URL_pathname (MediaItem.url i) = Some path)
  /\ getMediaType (MediaItem.url i) = Normal (MediaItem.type i)
  /\ (forall now, generateFilename now (MediaItem.url i) = Normal (MediaItem.filename i)).

(** [l] is [l'] with some elements left out, the others in their order. *)
Inductive subsequence {A : Type} : list A -> list A -> Prop :=
| subsequence_nil : subsequence [] []
| subsequence_skip x l l' : subsequence l l' -> subsequence l (x :: l')
| subsequence_keep x l l' : subsequence l l' -> subsequence (x :: l) (x :: l').

(** What the rendered view lets the user trigger in a state: the
    download button of an item shows while the item is pending (lines
    392-394), "Download All" is disabled without a pending item (line
    305), the queue's buttons need a non-empty queue (line 291) and
    "Clear History" a non-empty log (line 431). *)
Definition offered (s : AppState) (c : command) : Prop :=
  match c with
  | AddMediaItem _ _ _ => True
  | RemoveMediaItem id =>
      exists item, In item (mediaItems s) /\ MediaItem.id item = id
  | DownloadFile _ item =>
      In item (mediaItems s) /\ MediaItem.status item = pending
  | DownloadAll _ =>
      existsb (fun item => Status_eqb (MediaItem.status item) pending) (mediaItems s) = true
  | ClearCompleted => mediaItems s <> []
  | ClearHistory => downloadHistory s <> []
  end.

(** Single downloads of [items], one command after the other, the first
    meeting [envs k]. *)
Fixpoint run_each (envs : nat -> run_env) (k : nat) (items : list MediaItem.t)
  (s : AppState) : AppState :=
  match items with
  | [] => s
  | item :: rest => run_each envs (S k) rest (step (DownloadFile (envs k) item) s)
  end.

(** The history entries of the runs of a batch whose transfer succeeds,
    in the order of the runs. *)
Fixpoint batch_entries (envs : nat -> run_env) (k : nat) (items : list MediaItem.t)
  : list DownloadHistory.t :=
  match items with
  | [] => []
  | item :: rest =>
      ((if transfer_succeeds (envs k) then [history_entry (envs k) item] else [])
         ++ batch_entries envs (S k) rest)%list
  end.

(** The files saved and the errors logged, in order. *)
Fixpoint saves (l : list event) : list (string * list Byte.byte) :=
  match l with
  | [] => []
  | Save filename payload :: l' => (filename, payload) :: saves l'
  | _ :: l' => saves l'
  end.

Fixpoint console_errors (l : list event) : list js_error :=
  match l with
  | [] => []
  | ConsoleError e :: l' => e :: console_errors l'
  | _ :: l' => console_errors l'
  end.

(** The byte counts after each chunk. *)
Fixpoint running_totals (received : Z) (cs : list (list Byte.byte)) : list Z :=
  match cs with
  | [] => []
  | value :: cs' =>
      (received + chunk_length value) :: running_totals (received + chunk_length value) cs'
  end.

(** A string of white space only. *)
Fixpoint blank (s : string) : bool :=
  match s with
  | EmptyString => true
  | String a s' => JS.is_space a && blank s'
  end.

(** A string without white space. *)
Fixpoint spaceless (s : string) : bool :=
  match s with
  | EmptyString => true
  | String a s' => negb (JS.is_space a) && spaceless s'
  end.

(* ===================================================================== *)
(** ** The read loop and a run of [downloadFile], in closed form          *)
(* ===================================================================== *)

Lemma last_irrelevant_default {A} (l : list A) (a d d' : A) :
  last (a :: l) d = last (a :: l) d'.
Proof.
  revert a. induction l as [|b l IH]; intros a; [reflexivity|].
  change (last (b :: l) d = last (b :: l) d'). apply IH.
Qed.

Lemma read_loop_run id total e cs : forall received acc w,
  read_loop id total received acc cs e w =
  (match e with
   | EndOfStream => Normal (acc ++ cs)%list
   | ReadRejects => Throw StreamError
   end,
   let snaps := snapshots id (progress_values total received cs) (mediaItems (state w)) in
   mkWorld (mkState (last snaps (mediaItems (state w))) (downloadHistory (state w)))
           (log w ++ map SetMediaItems snaps)%list).
Proof.
  induction cs as [|value cs IH]; intros received acc [[items h] l]; simpl.
  - rewrite !app_nil_r. destruct e; reflexivity.
  - unfold bind. destruct (positive total) eqn:Hpos; simpl.
    + rewrite IH. simpl. rewrite <- !app_assoc. simpl.
      f_equal. f_equal. f_equal.
      destruct (snapshots id _ _) eqn:Hs; [reflexivity|].
      apply last_irrelevant_default.
    + rewrite IH. simpl. rewrite <- !app_assoc. reflexivity.
Qed.

Lemma downloadFile_run env item w :
  downloadFile env item w = (Normal tt, after_run env item w).
Proof.
  destruct w as [[items h] l].
  unfold downloadFile, after_run, try_catchM, bind, fetch, emit, setMediaItems,
    setDownloadHistory, transfer_progress, transfer_result, declared_total,
    delivered, throw, ret.
  simpl.
  destruct (fetched env) as [|r]; simpl.
  - rewrite <- !app_assoc. reflexivity.
  - destruct (ok r); simpl.
    + destruct (body r) as [b|]; simpl.
      * rewrite read_loop_run. simpl.
        destruct (ending b); simpl; rewrite <- !app_assoc; simpl;
          rewrite <- ?app_assoc; reflexivity.
      * rewrite <- !app_assoc. reflexivity.
    + rewrite <- !app_assoc. reflexivity.
Qed.

(* ===================================================================== *)
(** ** URL classifier                                                     *)
(* ===================================================================== *)

Lemma split_not_nil c s : JS.split c s <> [].
Proof.
  destruct s as [|a s]; simpl; [discriminate|].
  destruct (JS.ascii_eqb a c); [discriminate|].
  destruct (JS.split c s); discriminate.
Qed.

Lemma split_without_separator c s :
  JS.includes s c = false -> JS.split c s = [s].
Proof.
  induction s as [|a s IH]; simpl; intros H; [reflexivity|].
  apply orb_false_iff in H. destruct H as [Ha Hs].
  rewrite Ha, (IH Hs). reflexivity.
Qed.

Lemma split_with_separator c s :
  JS.includes s c = true -> exists p q qs, JS.split c s = p :: q :: qs.
Proof.
  induction s as [|a s IH]; simpl; intros H; [discriminate|].
  destruct (JS.ascii_eqb a c) eqn:Ha.
  - destruct (JS.split c s) as [|q qs] eqn:Hs.
    + exfalso. exact (split_not_nil _ _ Hs).
    + eauto.
  - simpl in H. destruct (IH H) as (p & q & qs & ->). eauto.
Qed.

Lemma after_last_without_separator c s :
  JS.includes s c = false -> after_last c s = s.
Proof.
  destruct s as [|a s]; simpl; intros H; [reflexivity|].
  apply orb_false_iff in H. destruct H as [-> ->]. reflexivity.
Qed.

(** [s.split(c).pop()] is the text after the last [c]. *)
Lemma pop_split c s : JS.pop (JS.split c s) = Some (after_last c s).
Proof.
  induction s as [|a s IH]; [reflexivity|].
  simpl. destruct (JS.includes s c) eqn:Hinc.
  - destruct (split_with_separator _ _ Hinc) as (p & q & qs & Hs).
    rewrite Hs in *. destruct (JS.ascii_eqb a c); exact IH.
  - rewrite (split_without_separator _ _ Hinc).
    destruct (JS.ascii_eqb a c); reflexivity.
Qed.

Lemma or_else_empty_default s : JS.or_else (Some s) "" = s.
Proof. destruct s; reflexivity. Qed.

Lemma getFileExtension_path url path :
  URL_pathname url = Some path ->
  getFileExtension url = Normal (path_extension path).
Proof.
  intros H. unfold getFileExtension, new_URL_pathname. rewrite H. simpl.
  rewrite pop_split. cbn [option_map]. rewrite or_else_empty_default. reflexivity.
Qed.

Lemma getFileExtension_malformed url :
  URL_pathname url = None -> getFileExtension url = Throw TypeError.
Proof.
  intros H. unfold getFileExtension, new_URL_pathname. rewrite H. reflexivity.
Qed.

Lemma includes_In l x : includes l x = true <-> In x l.
Proof.
  unfold includes. rewrite existsb_exists. split.
  - intros (y & Hy & Heq). apply String.eqb_eq in Heq. subst. exact Hy.
  - intros H. exists x. split; [exact H | apply String.eqb_refl].
Qed.

Lemma includes_not_In l x : includes l x = false <-> ~ In x l.
Proof.
  rewrite <- includes_In. destruct (includes l x); split; congruence.
Qed.

Lemma videoExts_not_image x : In x videoExts -> includes imageExts x = false.
Proof.
  intros H. simpl in H.
  repeat (destruct H as [<- | H]; [reflexivity|]). contradiction.
Qed.

Lemma includes_after_last c d s :
  JS.includes s d = false -> JS.includes (after_last c s) d = false.
Proof.
  induction s as [|a s IH]; simpl; intros H; [reflexivity|].
  apply orb_false_iff in H. destruct H as [Ha Hs].
  destruct (JS.includes s c); [exact (IH Hs)|].
  destruct (JS.ascii_eqb a c); [exact Hs|].
  simpl. rewrite Ha, Hs. reflexivity.
Qed.

(** When the last segment has a dot, the text after the last dot of the
    path is the text after the last dot of that segment. *)
Lemma after_last_dot_in_segment path :
  JS.includes (last_segment path) "." = true ->
  after_last "." path = after_last "." (last_segment path).
Proof.
  unfold last_segment. induction path as [|a s IH]; [discriminate|].
  cbn [after_last]. destruct (JS.includes s "/") eqn:Hslash.
  - intros Hseg. rewrite <- (IH Hseg).
    destruct (JS.includes s ".") eqn:Hdot; [reflexivity|].
    rewrite (includes_after_last "/" "." s Hdot) in Hseg. discriminate.
  - destruct (JS.ascii_eqb a "/") eqn:Ha; [|reflexivity].
    intros Hseg. rewrite Hseg. reflexivity.
Qed.

(** When the path has a slash and its last segment has no dot, the text
    after the last dot of the path runs over a slash. *)
Lemma after_last_dot_over_slash path :
  JS.includes path "/" = true ->
  JS.includes (last_segment path) "." = false ->
  JS.includes (after_last "." path) "/" = true.
Proof.
  unfold last_segment. induction path as [|a s IH]; [discriminate|].
  cbn [after_last JS.includes]. intros Hslash Hseg.
  destruct (JS.includes s ".") eqn:Hdot.
  - destruct (JS.includes s "/") eqn:Hs.
    + apply IH; [reflexivity | exact Hseg].
    + destruct (JS.ascii_eqb a "/"); [|discriminate].
      rewrite Hdot in Hseg. discriminate.
  - destruct (JS.ascii_eqb a ".") eqn:Ha.
    + apply Ascii.eqb_eq in Ha. subst a. exact Hslash.
    + cbn [JS.includes]. exact Hslash.
Qed.

Lemma lower_ascii_slash a : JS.ascii_eqb (JS.lower_ascii a) "/" = JS.ascii_eqb a "/".
Proof.
  destruct a as [[] [] [] [] [] [] [] []]; reflexivity.
Qed.

Lemma includes_toLowerCase_slash s :
  JS.includes (JS.toLowerCase s) "/" = JS.includes s "/".
Proof.
  induction s as [|a s IH]; [reflexivity|].
  cbn [JS.toLowerCase JS.includes]. rewrite lower_ascii_slash, IH. reflexivity.
Qed.

Lemma known_exts_without_slash x :
  In x imageExts \/ In x videoExts -> JS.includes x "/" = false.
Proof.
  intros [H | H]; simpl in H;
    repeat (destruct H as [<- | H]; [reflexivity|]); contradiction.
Qed.

(** X24. For a URL that parses, [getMediaType] answers [image] when the
    lower-case extension of the path is one of jpg, jpeg, png, gif, webp,
    svg, bmp, [video] when it is one of mp4, webm, avi, mov, wmv, flv,
    mkv, and [image] when it is in neither list.  The extension is the
    text after the last dot of the path; for a path with a slash this is
    the extension of its last segment, and [image] is the answer when
    that segment has no dot. *)
Theorem getMediaType_by_extension (url path : string) :
  URL_pathname url = Some path ->
  (In (path_extension path) imageExts -> getMediaType url = Normal image) /\
  (In (path_extension path) videoExts -> getMediaType url = Normal video) /\
  (~ In (path_extension path) imageExts -> ~ In (path_extension path) videoExts ->
   getMediaType url = Normal image) /\
  (JS.includes path "/" = true ->
   match segment_extension path with
   | Some ext =>
       (In ext imageExts -> getMediaType url = Normal image) /\
       (In ext videoExts -> getMediaType url = Normal video) /\
       (~ In ext imageExts -> ~ In ext videoExts -> getMediaType url = Normal image)
   | None => getMediaType url = Normal image
   end).
Proof.
  intros Hp. unfold getMediaType. rewrite (getFileExtension_path _ _ Hp).
  cbn [cbind].
  assert (H1 : In (path_extension path) imageExts ->
               (if includes imageExts (path_extension path) then Normal image
                else if includes videoExts (path_extension path) then Normal video
                else Normal image) = Normal image).
  { intros H. apply includes_In in H. rewrite H. reflexivity. }
  assert (H2 : In (path_extension path) videoExts ->
               (if includes imageExts (path_extension path) then Normal image
                else if includes videoExts (path_extension path) then Normal video
                else Normal image) = Normal video).
  { intros H. rewrite (videoExts_not_image _ H).
    apply includes_In in H. rewrite H. reflexivity. }
  assert (H3 : ~ In (path_extension path) imageExts ->
               ~ In (path_extension path) videoExts ->
               (if includes imageExts (path_extension path) then Normal image
                else if includes videoExts (path_extension path) then Normal video
                else Normal image) = Normal image).
  { intros Ha Hb. apply includes_not_In in Ha, Hb. rewrite Ha, Hb. reflexivity. }
  split; [exact H1|]. split; [exact H2|]. split; [exact H3|].
  intros Hslash. unfold segment_extension.
  destruct (JS.includes (last_segment path) ".") eqn:Hseg.
  - rewrite <- (after_last_dot_in_segment _ Hseg).
    fold (path_extension path). repeat split; assumption.
  - pose proof (after_last_dot_over_slash _ Hslash Hseg) as Hover.
    rewrite <- includes_toLowerCase_slash in Hover. fold (path_extension path) in Hover.
    apply H3; intros Hin.
    + rewrite (known_exts_without_slash _ (or_introl Hin)) in Hover. discriminate.
    + rewrite (known_exts_without_slash _ (or_intror Hin)) in Hover. discriminate.
Qed.

(** C1 (the defect). On a string that [new URL] rejects, [generateFilename]
    does not return the fallback name: the [catch] block calls
    [getFileExtension], which constructs the URL again and throws. *)
Theorem generateFilename_malformed_throws (now : Z) (url : string) :
  URL_pathname url = None ->
  generateFilename now url = Throw TypeError.
Proof.
  intros H. unfold generateFilename, try_catch, new_URL_pathname.
  rewrite H. simpl. rewrite (getFileExtension_malformed _ H). reflexivity.
Qed.

(** The fallback name is never returned: a normal return means the URL
    parsed. *)
Lemma generateFilename_returns_only_parsed now url f :
  generateFilename now url = Normal f -> exists path, URL_pathname url = Some path.
Proof.
  intros H. destruct (URL_pathname url) as [p|] eqn:Hp; [eauto|].
  unfold generateFilename, try_catch, new_URL_pathname in H.
  rewrite Hp in H. cbn [cbind] in H.
  rewrite (getFileExtension_malformed _ Hp) in H. discriminate.
Qed.

Lemma append_cancel_l (a b c : string) : (a ++ b = a ++ c)%string -> b = c.
Proof.
  induction a as [|x a IH]; simpl; intros H; [exact H|].
  injection H as H. exact (IH H).
Qed.

Lemma toLowerCase_empty s : JS.toLowerCase s = "" -> s = "".
Proof. destruct s; [reflexivity | discriminate]. Qed.

(** C8 (the defect). For a URL whose path has no dot, [generateFilename]
    suffixes the last segment with a dot and the whole lower-cased path,
    because [getFileExtension] finds no dot to split at; the result is
    never the segment followed by a bare dot. *)
Theorem generateFilename_dotless_path (now : Z) (url path : string) :
  URL_pathname url = Some path ->
  JS.includes path "." = false ->
  path <> "" ->
  let segment := JS.or_else (Some (last_segment path)) "download" in
  generateFilename now url = Normal (segment ++ "." ++ JS.toLowerCase path)%string /\
  generateFilename now url <> Normal (segment ++ ".")%string.
Proof.
  intros Hp Hdot Hne segment.
  assert (Hgen : generateFilename now url
                 = Normal (segment ++ "." ++ JS.toLowerCase path)%string).
  { unfold generateFilename, try_catch. unfold new_URL_pathname at 1.
    rewrite Hp. simpl. rewrite pop_split. fold (last_segment path). fold segment.
    assert (Hseg : JS.includes segment "." = false).
    { unfold segment, last_segment. simpl.
      destruct (JS.is_empty (after_last "/" path)); [reflexivity|].
      apply includes_after_last. exact Hdot. }
    rewrite Hseg. rewrite (getFileExtension_path _ _ Hp). simpl.
    unfold path_extension. rewrite (after_last_without_separator _ _ Hdot).
    reflexivity. }
  split; [exact Hgen|].
  rewrite Hgen. intros H. injection H as H.
  apply append_cancel_l in H. injection H as H.
  apply toLowerCase_empty in H. contradiction.
Qed.

(* ===================================================================== *)
(** ** Queue store: [addMediaItem]                                        *)
(* ===================================================================== *)

Lemma addMediaItem_noop now now' url w :
  JS.is_empty (JS.trim url) = true
  \/ already_queued (JS.trim url) (mediaItems (state w)) = true ->
  addMediaItem now now' url w = (Normal tt, w).
Proof.
  intros H. unfold addMediaItem. fold (already_queued (JS.trim url) (mediaItems (state w))).
  destruct H as [-> | ->]; [reflexivity|].
  rewrite orb_true_r. reflexivity.
Qed.

Lemma generateFilename_parsed now url path :
  URL_pathname url = Some path -> exists f, generateFilename now url = Normal f.
Proof.
  intros H. unfold generateFilename, try_catch. unfold new_URL_pathname at 1.
  rewrite H. cbn [cbind].
  destruct (JS.includes _ "."); [eauto|].
  rewrite (getFileExtension_path _ _ H). cbn [cbind]. eauto.
Qed.

Lemma getMediaType_parsed url path :
  URL_pathname url = Some path -> exists ty, getMediaType url = Normal ty.
Proof.
  intros H. unfold getMediaType. rewrite (getFileExtension_path _ _ H). cbn [cbind].
  destruct (includes imageExts _); [eauto|].
  destruct (includes videoExts _); eauto.
Qed.

(** A new URL that parses is appended once, as a pending item, at the
    end of the sequence. *)
Lemma addMediaItem_appends now now' url path w :
  JS.is_empty (JS.trim url) = false ->
  already_queued (JS.trim url) (mediaItems (state w)) = false ->
  URL_pathname (JS.trim url) = Some path ->
  exists ty fn,
    getMediaType (JS.trim url) = Normal ty /\
    generateFilename now' (JS.trim url) = Normal fn /\
    let newItem :=
      MediaItem.mk (JS.toString now) (JS.trim url) ty fn None pending None None in
    let items := (mediaItems (state w) ++ [newItem])%list in
    addMediaItem now now' url w =
    (Normal tt,
     mkWorld (mkState items (downloadHistory (state w)))
             (log w ++ [SetMediaItems items])%list).
Proof.
  intros He Hd Hp.
  destruct (getMediaType_parsed _ _ Hp) as [ty Hty].
  destruct (generateFilename_parsed now' _ _ Hp) as [fn Hfn].
  exists ty, fn. repeat split; [exact Hty | exact Hfn |].
  unfold addMediaItem. fold (already_queued (JS.trim url) (mediaItems (state w))).
  rewrite He, Hd. cbn [orb]. unfold bind, lift. rewrite Hty, Hfn. reflexivity.
Qed.

Lemma already_queued_app url items item :
  MediaItem.url item = url -> already_queued url (items ++ [item])%list = true.
Proof.
  intros H. unfold already_queued. rewrite existsb_app. simpl.
  rewrite H, String.eqb_refl. simpl. apply orb_true_r.
Qed.

(** Adding a URL that parses a second time changes nothing. *)
Lemma addMediaItem_twice now now' now2 now2' url path w :
  URL_pathname (JS.trim url) = Some path ->
  let w1 := snd (addMediaItem now now' url w) in
  addMediaItem now2 now2' url w1 = (Normal tt, w1).
Proof.
  intros Hp w1. apply addMediaItem_noop.
  destruct (JS.is_empty (JS.trim url)) eqn:He; [left; reflexivity|].
  right.
  destruct (already_queued (JS.trim url) (mediaItems (state w))) eqn:Hd.
  - unfold w1. rewrite addMediaItem_noop by (right; exact Hd). exact Hd.
  - destruct (addMediaItem_appends now now' url path w He Hd Hp)
      as (ty & fn & _ & _ & Hrun).
    unfold w1. rewrite Hrun. simpl. apply already_queued_app. reflexivity.
Qed.

(** C5 (the defect). On a non-blank URL that is not queued yet and that
    [new URL] rejects, [addMediaItem] appends nothing: [getMediaType]
    throws before the item is built, and the store is left as it was. *)
Theorem addMediaItem_malformed_throws (now now' : Z) (url : string) (w : world) :
  JS.is_empty (JS.trim url) = false ->
  already_queued (JS.trim url) (mediaItems (state w)) = false ->
  URL_pathname (JS.trim url) = None ->
  addMediaItem now now' url w = (Throw TypeError, w).
Proof.
  intros He Hd Hp.
  unfold addMediaItem. fold (already_queued (JS.trim url) (mediaItems (state w))).
  rewrite He, Hd. cbn [orb]. unfold bind, lift, getMediaType.
  rewrite (getFileExtension_malformed _ Hp). reflexivity.
Qed.

(* ===================================================================== *)
(** ** Observing a run                                                    *)
(* ===================================================================== *)

Lemma lookup_update_by_id id f items :
  (forall i, MediaItem.id (f i) = MediaItem.id i) ->
  lookup id (update_by_id id f items) = option_map f (lookup id items).
Proof.
  intros Hf. unfold lookup, update_by_id.
  induction items as [|i items IH]; [reflexivity|].
  simpl. destruct (String.eqb (MediaItem.id i) id) eqn:Hi.
  - rewrite Hf, Hi. reflexivity.
  - rewrite Hi. exact IH.
Qed.

Lemma lookup_snapshots id ps : forall items i,
  lookup id items = Some i ->
  map (lookup id) (snapshots id ps items)
  = map (fun p => Some (MediaItem.with_progress i p)) ps.
Proof.
  induction ps as [|p ps IH]; intros items i Hi; [reflexivity|].
  simpl. unfold set_progress at 1.
  rewrite lookup_update_by_id by reflexivity. rewrite Hi. simpl. f_equal.
  rewrite (IH _ (MediaItem.with_progress i p)).
  - reflexivity.
  - unfold set_progress. rewrite lookup_update_by_id by reflexivity.
    rewrite Hi. reflexivity.
Qed.

Lemma lookup_last_snapshot id ps : forall items i,
  lookup id items = Some i ->
  lookup id (last (snapshots id ps items) items)
  = Some (match ps with
          | [] => i
          | _ => MediaItem.with_progress i (last ps 0%Q)
          end).
Proof.
  induction ps as [|p ps IH]; intros items i Hi; [exact Hi|].
  assert (Hi' : lookup id (set_progress id p items) = Some (MediaItem.with_progress i p)).
  { unfold set_progress. rewrite lookup_update_by_id by reflexivity.
    rewrite Hi. reflexivity. }
  cbn [snapshots].
  destruct ps as [|q ps]; [exact Hi'|].
  specialize (IH _ _ Hi').
  cbn [snapshots] in IH |- *.
  rewrite (last_irrelevant_default _ _ items (set_progress id p items)).
  exact IH.
Qed.

Lemma committed_app l1 l2 : committed (l1 ++ l2) = (committed l1 ++ committed l2)%list.
Proof.
  induction l1 as [|e l1 IH]; [reflexivity|].
  destruct e; simpl; rewrite IH; reflexivity.
Qed.

Lemma committed_map snaps : committed (map SetMediaItems snaps) = snaps.
Proof. induction snaps as [|x snaps IH]; simpl; [|rewrite IH]; reflexivity. Qed.

Lemma history_pushes_app l1 l2 :
  history_pushes (l1 ++ l2) = (history_pushes l1 + history_pushes l2)%nat.
Proof.
  induction l1 as [|e l1 IH]; [reflexivity|].
  destruct e; simpl; rewrite IH; reflexivity.
Qed.

Lemma history_pushes_map snaps : history_pushes (map SetMediaItems snaps) = O.
Proof. induction snaps as [|x snaps IH]; simpl; [reflexivity | exact IH]. Qed.


Lemma item_trace_snapshots id ps items i :
  lookup id items = Some i ->
  item_trace id (snapshots id ps items) = map (MediaItem.with_progress i) ps.
Proof.
  intros Hi. pose proof (lookup_snapshots id ps items i Hi) as H.
  unfold item_trace. revert H. generalize (snapshots id ps items).
  induction ps as [|p ps IH]; intros snaps H.
  - destruct snaps; [reflexivity | discriminate].
  - destruct snaps as [|x snaps]; [discriminate|].
    simpl in H. injection H as Hx Hs.
    simpl. rewrite Hx. simpl. f_equal. apply IH. exact Hs.
Qed.

(** What a run commits for its item: the start record, one record per
    progress push, and the terminal record. *)
Lemma item_trace_run env item s i0 :
  lookup (MediaItem.id item) (mediaItems s) = Some i0 ->
  let w := snd (run (downloadFile env item) s) in
  let ps := transfer_progress env in
  item_trace (MediaItem.id item) (committed (log w))
  = (start_item i0 :: map (MediaItem.with_progress (start_item i0)) ps
       ++ [(if transfer_succeeds env then complete_item else fail_item)
             (progressed (start_item i0) ps)])%list
  /\ lookup (MediaItem.id item) (mediaItems (state w))
     = Some ((if transfer_succeeds env then complete_item else fail_item)
               (progressed (start_item i0) ps)).
Proof.
  intros Hi w ps. unfold w, run. rewrite downloadFile_run. cbn [snd].
  unfold after_run, transfer_succeeds. fold ps. cbn [state log mediaItems].
  set (id := MediaItem.id item) in *.
  assert (H1 : lookup id (update_by_id id start_item (mediaItems s)) = Some (start_item i0)).
  { rewrite lookup_update_by_id by reflexivity. rewrite Hi. reflexivity. }
  pose proof (lookup_last_snapshot id ps _ _ H1) as H2. fold (progressed (start_item i0) ps) in H2.
  pose proof (item_trace_snapshots id ps _ _ H1) as H3.
  destruct (transfer_result env) as [cs|e]; cbn [state log mediaItems app committed];
    rewrite committed_app, committed_map; cbn [committed];
    unfold item_trace in *; cbn [flat_map]; rewrite H1;
    rewrite flat_map_app, H3; cbn [flat_map];
    rewrite lookup_update_by_id by reflexivity; rewrite H2;
    cbn [option_map app]; split; reflexivity.
Qed.

(* ===================================================================== *)
(** ** Transfer engine: one run of [downloadFile]                         *)
(* ===================================================================== *)

Lemma transfer_fails_iff env : transfer_fails env <-> transfer_succeeds env = false.
Proof.
  unfold transfer_succeeds, transfer_result. split.
  - intros [H | r H Hok | r b H Hok Hb He]; rewrite H; [reflexivity| |].
    + rewrite Hok. reflexivity.
    + rewrite Hok, Hb, He. reflexivity.
  - destruct (fetched env) as [|r] eqn:H; [intros _; apply fails_network; exact H|].
    destruct (ok r) eqn:Hok; [|intros _; eapply fails_status; eauto].
    destruct (body r) as [b|] eqn:Hb; [|discriminate].
    destruct (ending b) eqn:He; [discriminate|].
    intros _. eapply fails_read; eauto.
Qed.

Lemma status_with_progress i ps :
  map MediaItem.status (map (MediaItem.with_progress i) ps)
  = repeat (MediaItem.status i) (List.length ps).
Proof. induction ps as [|p ps IH]; simpl; [|rewrite IH]; reflexivity. Qed.

Lemma progress_with_progress i ps :
  map MediaItem.progress (map (MediaItem.with_progress i) ps) = map Some ps.
Proof. induction ps as [|p ps IH]; simpl; [|rewrite IH]; reflexivity. Qed.

Lemma status_progressed i ps : MediaItem.status (progressed i ps) = MediaItem.status i.
Proof. destruct ps; reflexivity. Qed.

Lemma progress_progressed_start i ps :
  MediaItem.progress (progressed (start_item i) ps) = Some (last ps 0%Q).
Proof. destruct ps; reflexivity. Qed.

Lemma last_map_Some {A} (l : list A) (x : option A) (d : A) :
  l <> [] -> last (x :: map Some l) None = Some (last l d).
Proof.
  revert x. induction l as [|a l IH]; intros x H; [contradiction|].
  destruct l as [|b l]; [reflexivity|].
  change (last (Some a :: map Some (b :: l)) None = Some (last (b :: l) d)).
  apply IH. discriminate.
Qed.

Lemma downloadFile_returns env item s : fst (run (downloadFile env item) s) = Normal tt.
Proof. unfold run. rewrite downloadFile_run. reflexivity. Qed.

Lemma downloadFile_history env item s :
  let w := snd (run (downloadFile env item) s) in
  if transfer_succeeds env
  then downloadHistory (state w) = bounded_push (history_entry env item) (downloadHistory s)
       /\ history_pushes (log w) = 1%nat
  else downloadHistory (state w) = downloadHistory s
       /\ history_pushes (log w) = 0%nat.
Proof.
  unfold run. rewrite downloadFile_run. cbn [snd].
  unfold after_run, transfer_succeeds.
  destruct (transfer_result env); cbn [state log downloadHistory app history_pushes];
    rewrite history_pushes_app, history_pushes_map; split; reflexivity.
Qed.


(** C3. A run whose transfer fails (fetch rejected, non-success status,
    or a read that rejects) returns normally; the item's status goes
    downloading, then error; the progress it shows is 0, the pushed
    percentages, and at the end still the last of these; and the history
    log is not pushed to and is what it was. *)
Theorem downloadFile_failure (env : run_env) (item : MediaItem.t) (s : AppState) :
  lookup (MediaItem.id item) (mediaItems s) = Some item ->
  transfer_fails env ->
  let r := fst (run (downloadFile env item) s) in
  let w := snd (run (downloadFile env item) s) in
  let tr := item_trace (MediaItem.id item) (committed (log w)) in
  r = Normal tt /\
  map MediaItem.status tr
  = (downloading :: repeat downloading (List.length (transfer_progress env))
       ++ [error])%list /\
  map MediaItem.progress tr
  = (Some 0%Q :: map Some (transfer_progress env)
       ++ [Some (last (transfer_progress env) 0%Q)])%list /\
  (exists i, lookup (MediaItem.id item) (mediaItems (state w)) = Some i
             /\ MediaItem.status i = error
             /\ MediaItem.progress i = last (removelast (map MediaItem.progress tr)) None) /\
  history_pushes (log w) = 0%nat /\
  downloadHistory (state w) = downloadHistory s.
Proof.
  intros Hi Hfail r w tr.
  apply transfer_fails_iff in Hfail.
  destruct (item_trace_run env item s item Hi) as [Htr Hfin].
  pose proof (downloadFile_history env item s) as Hh.
  fold w in Htr, Hfin, Hh. cbv zeta in Htr, Hfin, Hh. fold tr in Htr.
  rewrite Hfail in *. destruct Hh as [Hh Hn].
  assert (Hp : map MediaItem.progress tr
               = (Some 0%Q :: map Some (transfer_progress env)
                    ++ [Some (last (transfer_progress env) 0%Q)])%list).
  { rewrite Htr. cbn [map]. rewrite map_app, progress_with_progress. cbn [map].
    unfold fail_item. cbn [MediaItem.with_status MediaItem.progress].
    rewrite progress_progressed_start. reflexivity. }
  split; [apply downloadFile_returns|].
  split.
  { rewrite Htr. cbn [map]. rewrite map_app, status_with_progress. reflexivity. }
  split; [exact Hp|].
  split; [|split; [exact Hn | exact Hh]].
  eexists. split; [exact Hfin|]. split; [reflexivity|].
  rewrite Hp.
  change (Some 0%Q :: map Some (transfer_progress env) ++ [Some (last (transfer_progress env) 0%Q)])%list
    with ((Some 0%Q :: map Some (transfer_progress env)) ++ [Some (last (transfer_progress env) 0%Q)])%list.
  rewrite removelast_last.
  unfold fail_item. cbn [MediaItem.with_status MediaItem.progress].
  rewrite progress_progressed_start.
  destruct (transfer_progress env) as [|p ps]; [reflexivity|].
  symmetry. apply last_map_Some. discriminate.
Qed.

(* ===================================================================== *)
(** ** Progress accounting                                                *)
(* ===================================================================== *)

Lemma percentage_nonneg r t : 0 <= r -> 0 < t -> (0 <= percentage r t)%Q.
Proof.
  intros Hr Ht. unfold percentage. rewrite Qred_correct.
  destruct t as [|p|p]; try lia.
  unfold Qle, Qdiv, Qmult, Qinv, inject_Z. simpl. lia.
Qed.

Lemma percentage_mono r r' t :
  r <= r' -> 0 < t -> (percentage r t <= percentage r' t)%Q.
Proof.
  intros Hr Ht. unfold percentage. rewrite !Qred_correct.
  destruct t as [|p|p]; try lia.
  unfold Qle, Qdiv, Qmult, Qinv, inject_Z. simpl. nia.
Qed.

Lemma percentage_le_100 r t : r <= t -> 0 < t -> (percentage r t <= 100)%Q.
Proof.
  intros Hr Ht. unfold percentage. rewrite Qred_correct.
  destruct t as [|p|p]; try lia.
  unfold Qle, Qdiv, Qmult, Qinv, inject_Z. simpl. nia.
Qed.

Lemma chunk_length_nonneg value : 0 <= chunk_length value.
Proof. unfold chunk_length. lia. Qed.

Lemma total_bytes_nonneg cs : 0 <= total_bytes cs.
Proof.
  induction cs as [|v cs IH]; simpl; [lia|].
  pose proof (chunk_length_nonneg v). lia.
Qed.

Lemma progress_values_unknown total cs : forall received,
  positive total = false -> progress_values total received cs = [].
Proof.
  induction cs as [|v cs IH]; intros received H; simpl; [reflexivity|].
  rewrite H. apply IH. exact H.
Qed.

Lemma progress_values_known t cs : 0 < t -> forall received, 0 <= received ->
  Forall (fun p => (percentage received t <= p)%Q
                   /\ (p <= percentage (received + total_bytes cs) t)%Q)
         (progress_values (Some t) received cs)
  /\ StronglySorted Qle (progress_values (Some t) received cs).
Proof.
  intros Ht. induction cs as [|v cs IH]; intros received Hr; simpl.
  - split; constructor.
  - assert (Hpos : (0 <? t) = true) by (apply Z.ltb_lt; exact Ht).
    rewrite Hpos.
    pose proof (chunk_length_nonneg v) as Hv.
    pose proof (total_bytes_nonneg cs) as Hcs.
    destruct (IH (received + chunk_length v)) as [Hall Hsorted]; [lia|].
    rewrite Z.add_assoc. split.
    + constructor.
      * split; apply percentage_mono; lia.
      * eapply Forall_impl; [|exact Hall]. cbv beta. intros p [Hlo Hhi].
        split; [|exact Hhi].
        eapply Qle_trans; [|exact Hlo]. apply percentage_mono; lia.
    + constructor; [exact Hsorted|].
      eapply Forall_impl; [|exact Hall]. cbv beta. intros p [Hlo _]. exact Hlo.
Qed.

Lemma downloading_progress_run i ps f :
  MediaItem.status (f (progressed (start_item i) ps)) <> downloading ->
  downloading_progress
    (start_item i :: map (MediaItem.with_progress (start_item i)) ps
       ++ [f (progressed (start_item i) ps)])%list
  = (0%Q :: ps)%list.
Proof.
  intros Hf. unfold downloading_progress. cbn [flat_map MediaItem.status
    MediaItem.progress start_item MediaItem.with_progress MediaItem.with_status app].
  f_equal. rewrite flat_map_app. cbn [flat_map].
  destruct (MediaItem.status (f _)); try contradiction;
    rewrite !app_nil_r; clear Hf;
    induction ps as [|p ps IH]; simpl; try rewrite IH; reflexivity.
Qed.

Lemma total_unknown_not_positive env :
  total_unknown env -> positive (declared_total env) = false.
Proof.
  unfold total_unknown, declared_total. intros H.
  destruct (fetched env) as [|r]; [reflexivity|].
  destruct (ok r); [|reflexivity].
  destruct (H r eq_refl) as [-> | (s & -> & Hs)]; [reflexivity|].
  unfold total_of. destruct (JS.is_empty s); [reflexivity|].
  rewrite Hs. reflexivity.
Qed.

(** C10 (amended). During a run, the progress values an item shows while
    it is downloading (the 0 of the start and the pushed percentages) are
    never negative and never decrease; they stay at or below 100 when the
    bytes delivered do not exceed the declared total; and when the length
    header is absent or holds no number, or the total is not positive,
    nothing is pushed: the only commits are the start and the terminal
    one. *)
Theorem progress_while_downloading (env : run_env) (item i0 : MediaItem.t) (s : AppState) :
  lookup (MediaItem.id item) (mediaItems s) = Some i0 ->
  let w := snd (run (downloadFile env item) s) in
  let shown :=
    downloading_progress (item_trace (MediaItem.id item) (committed (log w))) in
  Forall (fun p => (0 <= p)%Q) shown /\
  StronglySorted Qle shown /\
  ((forall t, declared_total env = Some t -> total_bytes (delivered env) <= t) ->
   Forall (fun p => (p <= 100)%Q) shown) /\
  (total_unknown env \/ positive (declared_total env) = false ->
   shown = [0%Q] /\ List.length (committed (log w)) = 2%nat).
Proof.
  intros Hi w shown.
  destruct (item_trace_run env item s i0 Hi) as [Htr _].
  fold w in Htr. cbv zeta in Htr.
  assert (Hshown : shown = (0%Q :: transfer_progress env)%list).
  { unfold shown. rewrite Htr. apply downloading_progress_run.
    destruct (transfer_succeeds env); unfold complete_item, fail_item;
      cbn [MediaItem.status MediaItem.with_status MediaItem.with_progress];
      discriminate. }
  assert (Hunknown : positive (declared_total env) = false ->
                     transfer_progress env = []).
  { intros H. apply progress_values_unknown. exact H. }
  assert (Hknown : forall t, declared_total env = Some t -> 0 < t ->
            Forall (fun p => (percentage 0 t <= p)%Q
                             /\ (p <= percentage (0 + total_bytes (delivered env)) t)%Q)
                   (transfer_progress env)
            /\ StronglySorted Qle (transfer_progress env)).
  { intros t Ht Hpos. unfold transfer_progress. rewrite Ht.
    apply progress_values_known; [exact Hpos | lia]. }
  assert (Hcases : positive (declared_total env) = false
                   \/ exists t, declared_total env = Some t /\ 0 < t).
  { destruct (declared_total env) as [t|]; [|left; reflexivity].
    simpl. destruct (0 <? t) eqn:Hlt; [right|left; reflexivity].
    exists t. split; [reflexivity | apply Z.ltb_lt; exact Hlt]. }
  rewrite Hshown.
  split; [|split; [|split]].
  - constructor; [apply Qle_refl|].
    destruct Hcases as [H | (t & Ht & Hpos)].
    + rewrite (Hunknown H). constructor.
    + destruct (Hknown t Ht Hpos) as [Hall _].
      eapply Forall_impl; [|exact Hall]. cbv beta. intros p [Hlo _].
      eapply Qle_trans; [|exact Hlo]. apply percentage_nonneg; lia.
  - destruct Hcases as [H | (t & Ht & Hpos)].
    + rewrite (Hunknown H). repeat constructor.
    + destruct (Hknown t Ht Hpos) as [Hall Hsorted].
      constructor; [exact Hsorted|].
      eapply Forall_impl; [|exact Hall]. cbv beta. intros p [Hlo _].
      eapply Qle_trans; [|exact Hlo]. apply percentage_nonneg; lia.
  - intros Hbytes. constructor; [discriminate|].
    destruct Hcases as [H | (t & Ht & Hpos)].
    + rewrite (Hunknown H). constructor.
    + destruct (Hknown t Ht Hpos) as [Hall _].
      eapply Forall_impl; [|exact Hall]. cbv beta. intros p [_ Hhi].
      eapply Qle_trans; [exact Hhi|].
      apply percentage_le_100; [|exact Hpos].
      specialize (Hbytes t Ht). lia.
  - intros H.
    assert (H' : positive (declared_total env) = false).
    { destruct H as [H | H]; [apply total_unknown_not_positive|]; exact H. }
    clear H. rename H' into H.
    rewrite (Hunknown H). split; [reflexivity|].
    unfold w, run. rewrite downloadFile_run. cbn [snd].
    unfold after_run. rewrite (Hunknown H).
    destruct (transfer_result env); reflexivity.
Qed.

(* ===================================================================== *)
(** ** Batches of runs, in closed form                                    *)
(* ===================================================================== *)

Lemma download_each_run envs items : forall k w,
  download_each envs k items w = (Normal tt, after_batch envs k items w).
Proof.
  induction items as [|item rest IH]; intros k w; [reflexivity|].
  cbn [download_each after_batch]. unfold bind at 1.
  rewrite downloadFile_run. unfold bind, emit. cbn [fst snd]. apply IH.
Qed.

(* ===================================================================== *)
(** ** History log                                                        *)
(* ===================================================================== *)

Lemma bounded_push_firstn h l : bounded_push h l = firstn 50 (h :: l).
Proof. reflexivity. Qed.

Lemma bounded_push_length h l : (List.length (bounded_push h l) <= 50)%nat.
Proof.
  rewrite bounded_push_firstn. rewrite length_firstn. apply Nat.le_min_l.
Qed.

Lemma firstn_app_firstn {A} (a b : list A) : forall m k,
  (m <= k)%nat -> firstn m (a ++ firstn k b)%list = firstn m (a ++ b)%list.
Proof.
  induction a as [|x a IH]; intros m k Hmk.
  - cbn [app]. rewrite firstn_firstn. f_equal. lia.
  - destruct m as [|m]; [reflexivity|].
    cbn [app firstn]. f_equal. apply IH. lia.
Qed.

(** Pushes keep what was there, in order, up to eviction at the tail. *)
Lemma bounded_appends_shape l l' :
  bounded_appends l l' ->
  l' = l \/ exists new, new <> [] /\ l' = firstn 50 (new ++ l)%list.
Proof.
  induction 1 as [l | h l l' _ IH]; [left; reflexivity|].
  right. destruct IH as [-> | (new & _ & ->)].
  - exists [h]. split; [discriminate | reflexivity].
  - exists (new ++ [h])%list. split; [destruct new; discriminate|].
    rewrite bounded_push_firstn, firstn_app_firstn by lia.
    rewrite <- app_assoc. reflexivity.
Qed.

Lemma after_run_history env item w :
  downloadHistory (state (after_run env item w))
  = if transfer_succeeds env
    then bounded_push (history_entry env item) (downloadHistory (state w))
    else downloadHistory (state w).
Proof.
  unfold after_run, transfer_succeeds. destruct (transfer_result env); reflexivity.
Qed.

Lemma after_batch_history envs items : forall k w,
  bounded_appends (downloadHistory (state w))
                  (downloadHistory (state (after_batch envs k items w))).
Proof.
  induction items as [|item rest IH]; intros k w; [apply appends_none|].
  cbn [after_batch].
  specialize (IH (S k) (delayed (after_run (envs k) item w))).
  cbn [delayed state] in IH. rewrite after_run_history in IH.
  destruct (transfer_succeeds (envs k)); [eapply appends_push|]; exact IH.
Qed.

Lemma addMediaItem_history now now' url w :
  downloadHistory (state (snd (addMediaItem now now' url w)))
  = downloadHistory (state w).
Proof.
  unfold addMediaItem.
  destruct (JS.is_empty _ || existsb _ _); [reflexivity|].
  unfold bind, lift.
  destruct (getMediaType _); [|reflexivity].
  destruct (generateFilename _ _); reflexivity.
Qed.

Lemma step_DownloadFile_history env item s :
  downloadHistory (step (DownloadFile env item) s)
  = if transfer_succeeds env
    then bounded_push (history_entry env item) (downloadHistory s)
    else downloadHistory s.
Proof.
  unfold step, run. cbn [exec]. rewrite downloadFile_run. cbn [snd].
  apply after_run_history.
Qed.

Lemma step_history_cases (c : command) (s : AppState) :
  let h := downloadHistory s in
  let h' := downloadHistory (step c s) in
  match c with
  | ClearHistory => h' = []
  | DownloadFile env item =>
      h' = if transfer_succeeds env then bounded_push (history_entry env item) h else h
  | DownloadAll _ => bounded_appends h h'
  | AddMediaItem _ _ _ | RemoveMediaItem _ | ClearCompleted => h' = h
  end.
Proof.
  destruct c as [now now' url | id | env item | envs | |]; cbv zeta.
  - unfold step, run. cbn [exec]. apply addMediaItem_history.
  - reflexivity.
  - apply step_DownloadFile_history.
  - unfold step, run. cbn [exec]. unfold downloadAll. rewrite download_each_run.
    cbn [snd]. apply (after_batch_history envs _ 0%nat (mkWorld s [])).
  - reflexivity.
  - reflexivity.
Qed.

Lemma step_history_appends (c : command) (s : AppState) :
  c <> ClearHistory ->
  bounded_appends (downloadHistory s) (downloadHistory (step c s)).
Proof.
  intros Hne. pose proof (step_history_cases c s) as Hc. cbv zeta in Hc.
  destruct c; try (rewrite Hc; apply appends_none); try exact Hc.
  - rewrite Hc. destruct (transfer_succeeds env).
    + eapply appends_push, appends_none.
    + apply appends_none.
  - contradiction.
Qed.

(** C9 (amended). What each command does to the history log: the
    commands of the queue leave it alone, a single download pushes one
    entry when the transfer succeeds and nothing otherwise, a batch makes
    a sequence of such pushes, and [clearHistory] empties it.  So every
    command but [clearHistory] keeps the entries that were there, in
    order, up to the eviction of the oldest ones by the cap of 50. *)
Theorem history_mutations (c : command) (s : AppState) :
  let h := downloadHistory s in
  let h' := downloadHistory (step c s) in
  match c with
  | ClearHistory => h' = []
  | DownloadFile env item =>
      h' = if transfer_succeeds env then bounded_push (history_entry env item) h else h
  | DownloadAll _ => bounded_appends h h'
  | AddMediaItem _ _ _ | RemoveMediaItem _ | ClearCompleted => h' = h
  end /\
  (c <> ClearHistory ->
   bounded_appends h h'
   /\ (h' = h \/ exists new, new <> [] /\ h' = firstn 50 (new ++ h)%list)).
Proof.
  intros h h'. split; [apply step_history_cases|].
  intros Hne. pose proof (step_history_appends c s Hne) as Happ.
  split; [exact Happ | apply bounded_appends_shape; exact Happ].
Qed.

Lemma bounded_appends_nonempty l l' : bounded_appends l l' -> l <> [] -> l' <> [].
Proof.
  induction 1 as [l | h l l' _ IH]; intros Hl; [exact Hl|].
  apply IH. discriminate.
Qed.

Lemma reachable_history_length s :
  reachable s -> (List.length (downloadHistory s) <= 50)%nat.
Proof.
  induction 1 as [|c s _ IH]; [cbn; lia|].
  assert (Hclear : c = ClearHistory \/ c <> ClearHistory)
    by (destruct c; (left; reflexivity) || (right; discriminate)).
  destruct Hclear as [-> | Hne]; [cbn; lia|].
  destruct (bounded_appends_shape _ _ (step_history_appends c s Hne))
    as [-> | (new & _ & ->)]; [exact IH|].
  rewrite length_firstn. lia.
Qed.

Lemma reachable_run_downloads runs : forall s,
  reachable s -> reachable (run_downloads runs s).
Proof.
  induction runs as [|r runs IH]; intros s Hs; [exact Hs|].
  cbn [run_downloads fold_left]. apply IH. apply reachable_step. exact Hs.
Qed.

Lemma run_downloads_history runs : forall s,
  (List.length (downloadHistory s) <= 50)%nat ->
  Forall (fun r => transfer_succeeds (fst r) = true) runs ->
  downloadHistory (run_downloads runs s)
  = firstn 50 (rev (map (fun r => history_entry (fst r) (snd r)) runs)
                 ++ downloadHistory s)%list.
Proof.
  induction runs as [|r runs IH]; intros s Hlen Hall.
  - cbn [run_downloads fold_left map rev app].
    symmetry. apply firstn_all2. exact Hlen.
  - inversion Hall as [|r' runs' Hr Hrest]; subst.
    change (run_downloads (r :: runs) s)
      with (run_downloads runs (step (DownloadFile (fst r) (snd r)) s)).
    rewrite (IH _) by
      (try exact Hrest; rewrite step_DownloadFile_history, Hr; apply bounded_push_length).
    rewrite step_DownloadFile_history, Hr.
    rewrite bounded_push_firstn, firstn_app_firstn by lia.
    cbn [map rev]. rewrite <- app_assoc. reflexivity.
Qed.

(** C2. In every reachable state the history log has at most 50 entries,
    and it stays so along any sequence of downloads; a successful
    download puts its entry at the head, in front of the first 49 of the
    previous entries, which at capacity are all but the oldest; after 60
    successful downloads in a row the log is exactly the entries of the
    last 50 of them, the most recent first. *)
Theorem history_capped_most_recent_first
  (runs : list (run_env * MediaItem.t)) (s : AppState) :
  reachable s ->
  Forall (fun r => transfer_succeeds (fst r) = true) runs ->
  List.length runs = 60%nat ->
  let entries := map (fun r => history_entry (fst r) (snd r)) runs in
  (List.length (downloadHistory s) <= 50)%nat /\
  (forall n, (List.length (downloadHistory (run_downloads (firstn n runs) s)) <= 50)%nat) /\
  (forall env item, transfer_succeeds env = true ->
     downloadHistory (step (DownloadFile env item) s)
     = history_entry env item :: firstn 49 (downloadHistory s)
     /\ (List.length (downloadHistory s) = 50%nat ->
         downloadHistory (step (DownloadFile env item) s)
         = history_entry env item :: removelast (downloadHistory s))) /\
  downloadHistory (run_downloads runs s) = firstn 50 (rev entries) /\
  List.length (downloadHistory (run_downloads runs s)) = 50%nat.
Proof.
  intros Hreach Hall Hlen entries.
  pose proof (reachable_history_length s Hreach) as Hs.
  assert (Hfinal : downloadHistory (run_downloads runs s) = firstn 50 (rev entries)).
  { rewrite (run_downloads_history runs s Hs Hall). fold entries.
    rewrite firstn_app.
    replace (50 - List.length (rev entries))%nat with 0%nat
      by (rewrite length_rev; unfold entries; rewrite length_map; lia).
    cbn [firstn]. apply app_nil_r. }
  split; [exact Hs|].
  split; [intros n; apply reachable_history_length, reachable_run_downloads; exact Hreach|].
  split.
  - intros env item Hok. rewrite step_DownloadFile_history, Hok.
    split; [reflexivity|]. intros Hfull. unfold bounded_push. f_equal.
    rewrite removelast_firstn_len, Hfull. reflexivity.
  - split; [exact Hfinal|].
    rewrite Hfinal, length_firstn, length_rev. unfold entries.
    rewrite length_map, Hlen. reflexivity.
Qed.

(* ===================================================================== *)
(** ** Batch loop: [downloadAll]                                          *)
(* ===================================================================== *)

Lemma fetches_app l1 l2 : fetches (l1 ++ l2) = (fetches l1 ++ fetches l2)%list.
Proof.
  induction l1 as [|e l1 IH]; [reflexivity|].
  destruct e; simpl; rewrite IH; reflexivity.
Qed.

Lemma delays_app l1 l2 : delays (l1 ++ l2) = (delays l1 ++ delays l2)%list.
Proof.
  induction l1 as [|e l1 IH]; [reflexivity|].
  destruct e; simpl; rewrite IH; reflexivity.
Qed.

Lemma fetches_map snaps : fetches (map SetMediaItems snaps) = [].
Proof. induction snaps as [|x snaps IH]; simpl; [reflexivity | exact IH]. Qed.

Lemma delays_map snaps : delays (map SetMediaItems snaps) = [].
Proof. induction snaps as [|x snaps IH]; simpl; [reflexivity | exact IH]. Qed.

Lemma update_by_id_ext id f g items :
  (forall i, f i = g i) -> update_by_id id f items = update_by_id id g items.
Proof.
  intros H. unfold update_by_id. apply map_ext. intros i. rewrite H. reflexivity.
Qed.

Lemma update_by_id_compose id f g items :
  (forall i, MediaItem.id (g i) = MediaItem.id i) ->
  update_by_id id f (update_by_id id g items) = update_by_id id (fun i => f (g i)) items.
Proof.
  intros Hg. unfold update_by_id. rewrite map_map. apply map_ext. intros i.
  destruct (String.eqb (MediaItem.id i) id) eqn:Hi.
  - rewrite Hg, Hi. reflexivity.
  - rewrite Hi. reflexivity.
Qed.

Lemma update_by_id_same id items : update_by_id id (fun i => i) items = items.
Proof.
  unfold update_by_id. rewrite <- (map_id items) at 2. apply map_ext.
  intros i. destruct (String.eqb _ _); reflexivity.
Qed.

Lemma last_cons {A} (x d : A) l : last (x :: l) d = last l x.
Proof.
  revert x. induction l as [|y l IH]; intros x; [reflexivity|].
  change (last (y :: l) d = last (y :: l) x). apply last_irrelevant_default.
Qed.

Lemma last_snapshots id ps : forall items,
  last (snapshots id ps items) items = update_by_id id (fun i => progressed i ps) items.
Proof.
  induction ps as [|p ps IH]; intros items.
  - symmetry. apply update_by_id_same.
  - cbn [snapshots]. rewrite last_cons, IH. unfold set_progress.
    rewrite update_by_id_compose by reflexivity.
    apply update_by_id_ext. intros i. destruct ps; reflexivity.
Qed.

Lemma after_run_items env item w :
  mediaItems (state (after_run env item w))
  = update_by_id (MediaItem.id item) (finish env) (mediaItems (state w)).
Proof.
  unfold after_run, finish, transfer_succeeds.
  destruct (transfer_result env); cbn [state mediaItems];
    rewrite last_snapshots, !update_by_id_compose;
    try reflexivity; intros i; destruct (transfer_progress env); reflexivity.
Qed.

Lemma after_run_log env item w :
  log (after_run env item w)
  = (log w ++ log (after_run env item (mkWorld (state w) [])))%list
  /\ state (after_run env item w) = state (after_run env item (mkWorld (state w) [])).
Proof.
  unfold after_run. destruct (transfer_result env); split; reflexivity.
Qed.

Lemma after_run_block env item st :
  let w := after_run env item (mkWorld st []) in
  fetches (log w) = [MediaItem.url item]
  /\ delays (log w) = []
  /\ last (committed (log w)) [] = mediaItems (state w).
Proof.
  unfold after_run.
  destruct (transfer_result env); cbn [log state mediaItems app fetches delays committed];
    rewrite fetches_app, delays_app, committed_app, fetches_map, delays_map, committed_map;
    cbn [app fetches delays committed];
    (split; [reflexivity|]); (split; [reflexivity|]);
    rewrite last_cons; apply last_last.
Qed.

Lemma finish_status env i :
  MediaItem.status (finish env i) = if transfer_succeeds env then completed else error.
Proof. unfold finish. destruct (transfer_succeeds env); reflexivity. Qed.

Lemma finish_id env i : MediaItem.id (finish env i) = MediaItem.id i.
Proof.
  unfold finish. destruct (transfer_succeeds env), (transfer_progress env); reflexivity.
Qed.

Lemma finish_url env i : MediaItem.url (finish env i) = MediaItem.url i.
Proof.
  unfold finish. destruct (transfer_succeeds env), (transfer_progress env); reflexivity.
Qed.




Lemma after_batch_items envs pend : forall k w,
  mediaItems (state (after_batch envs k pend w))
  = map (apply_runs envs k pend) (mediaItems (state w)).
Proof.
  induction pend as [|item rest IH]; intros k w.
  - cbn [after_batch apply_runs]. symmetry. apply map_id.
  - cbn [after_batch]. rewrite IH. cbn [delayed state]. rewrite after_run_items.
    unfold update_by_id. rewrite map_map. reflexivity.
Qed.

Lemma apply_runs_untouched envs pend : forall k i,
  (forall p, In p pend -> MediaItem.id p <> MediaItem.id i) ->
  apply_runs envs k pend i = i.
Proof.
  induction pend as [|p rest IH]; intros k i H; [reflexivity|].
  cbn [apply_runs].
  destruct (String.eqb (MediaItem.id i) (MediaItem.id p)) eqn:Hip.
  - apply String.eqb_eq in Hip. exfalso. apply (H p); [left; reflexivity | congruence].
  - apply IH. intros q Hq. apply H. right. exact Hq.
Qed.

Lemma apply_runs_keeps envs pend : forall k i,
  MediaItem.id (apply_runs envs k pend i) = MediaItem.id i
  /\ MediaItem.url (apply_runs envs k pend i) = MediaItem.url i
  /\ (terminal (MediaItem.status i) -> terminal (MediaItem.status (apply_runs envs k pend i))).
Proof.
  induction pend as [|p rest IH]; intros k i; [repeat split; intros H; exact H|].
  cbn [apply_runs].
  destruct (String.eqb (MediaItem.id i) (MediaItem.id p)).
  - destruct (IH (S k) (finish (envs k) i)) as (Hid & Hurl & Hterm).
    rewrite Hid, Hurl, finish_id, finish_url. repeat split.
    intros _. apply Hterm. rewrite finish_status. unfold terminal.
    destruct (transfer_succeeds (envs k)); [left | right]; reflexivity.
  - apply IH.
Qed.

Lemma apply_runs_terminal envs pend : forall k i,
  (exists p, In p pend /\ MediaItem.id p = MediaItem.id i) ->
  terminal (MediaItem.status (apply_runs envs k pend i)).
Proof.
  induction pend as [|p rest IH]; intros k i (q & Hq & Hid); [contradiction|].
  cbn [apply_runs].
  destruct (String.eqb (MediaItem.id i) (MediaItem.id p)) eqn:Hip.
  - apply apply_runs_keeps. rewrite finish_status. unfold terminal.
    destruct (transfer_succeeds (envs k)); [left | right]; reflexivity.
  - apply IH. destruct Hq as [-> | Hq].
    + rewrite Hid, String.eqb_refl in Hip. discriminate.
    + exists q. split; assumption.
Qed.

Lemma NoDup_ids_injective (items : list MediaItem.t) (a b : MediaItem.t) :
  NoDup (map MediaItem.id items) -> In a items -> In b items ->
  MediaItem.id a = MediaItem.id b -> a = b.
Proof.
  induction items as [|x items IH]; intros Hnd Ha Hb Hid; [contradiction|].
  cbn [map] in Hnd. inversion Hnd as [|y ys Hnotin Hnd']; subst.
  destruct Ha as [-> | Ha], Hb as [-> | Hb].
  - reflexivity.
  - exfalso. apply Hnotin. rewrite Hid. apply in_map. exact Hb.
  - exfalso. apply Hnotin. rewrite <- Hid. apply in_map. exact Ha.
  - apply IH; assumption.
Qed.

Lemma Status_eqb_eq a b : Status_eqb a b = true <-> a = b.
Proof. destruct a, b; split; intros H; try reflexivity; discriminate. Qed.


Lemma Forall2_map_In {A} (R : A -> A -> Prop) (g : A -> A) (l : list A) :
  (forall x, In x l -> R x (g x)) -> Forall2 R l (map g l).
Proof.
  induction l as [|x l IH]; intros H; [constructor|].
  constructor; [apply H; left; reflexivity|].
  apply IH. intros y Hy. apply H. right. exact Hy.
Qed.


(* ===================================================================== *)
(** ** More on the URL classifier                                         *)
(* ===================================================================== *)

Lemma getMediaType_throws_only_unparsed url e :
  getMediaType url = Throw e -> URL_pathname url = None /\ e = TypeError.
Proof.
  intros H. destruct (URL_pathname url) as [path|] eqn:Hp.
  - destruct (getMediaType_parsed _ _ Hp) as [ty Hty]. congruence.
  - unfold getMediaType in H. rewrite (getFileExtension_malformed _ Hp) in H.
    cbn [cbind] in H. injection H as <-. split; reflexivity.
Qed.

Lemma getMediaType_malformed url :
  URL_pathname url = None -> getMediaType url = Throw TypeError.
Proof.
  intros Hp. unfold getMediaType. rewrite (getFileExtension_malformed _ Hp). reflexivity.
Qed.

Lemma generateFilename_malformed now url :
  URL_pathname url = None -> generateFilename now url = Throw TypeError.
Proof.
  intros H. unfold generateFilename, try_catch, new_URL_pathname.
  rewrite H. cbn [cbind]. rewrite (getFileExtension_malformed _ H). reflexivity.
Qed.

(** X1. The three classifier functions throw exactly on the strings that
    [new URL] rejects, and what they throw is its [TypeError]; on every
    other string they return. *)
Theorem classifier_throws_exactly_on_unparsed (now : Z) (url : string) :
  (URL_pathname url = None <-> getFileExtension url = Throw TypeError) /\
  (URL_pathname url = None <-> getMediaType url = Throw TypeError) /\
  (URL_pathname url = None <-> generateFilename now url = Throw TypeError) /\
  (forall e, getFileExtension url = Throw e \/ getMediaType url = Throw e
             \/ generateFilename now url = Throw e -> e = TypeError).
Proof.
  destruct (URL_pathname url) as [path|] eqn:Hp.
  - destruct (getMediaType_parsed _ _ Hp) as [ty Hty].
    destruct (generateFilename_parsed now _ _ Hp) as [f Hf].
    rewrite (getFileExtension_path _ _ Hp), Hty, Hf.
    repeat split; try discriminate.
    intros e [H | [H | H]]; discriminate.
  - rewrite (getFileExtension_malformed _ Hp), (getMediaType_malformed _ Hp),
      (generateFilename_malformed now _ Hp).
    repeat split; try reflexivity.
    intros e [H | [H | H]]; injection H as <-; reflexivity.
Qed.

Lemma includes_after_last_same c s : JS.includes (after_last c s) c = false.
Proof.
  induction s as [|a s IH]; [reflexivity|].
  cbn [after_last]. destruct (JS.includes s c) eqn:Hs; [exact IH|].
  destruct (JS.ascii_eqb a c) eqn:Ha; [exact Hs|].
  cbn [JS.includes]. rewrite Ha, Hs. reflexivity.
Qed.

Lemma lower_ascii_idempotent a : JS.lower_ascii (JS.lower_ascii a) = JS.lower_ascii a.
Proof. destruct a as [[] [] [] [] [] [] [] []]; reflexivity. Qed.

Lemma lower_ascii_dot a : JS.ascii_eqb (JS.lower_ascii a) "." = JS.ascii_eqb a ".".
Proof. destruct a as [[] [] [] [] [] [] [] []]; reflexivity. Qed.

Lemma toLowerCase_idempotent s : JS.toLowerCase (JS.toLowerCase s) = JS.toLowerCase s.
Proof.
  induction s as [|a s IH]; [reflexivity|].
  cbn [JS.toLowerCase]. rewrite lower_ascii_idempotent, IH. reflexivity.
Qed.

Lemma includes_toLowerCase_dot s :
  JS.includes (JS.toLowerCase s) "." = JS.includes s ".".
Proof.
  induction s as [|a s IH]; [reflexivity|].
  cbn [JS.toLowerCase JS.includes]. rewrite lower_ascii_dot, IH. reflexivity.
Qed.

(** X2. For a URL that parses, the extension [getFileExtension] returns
    has no dot in it and no upper-case letter (lower-casing it again
    changes nothing). *)
Theorem getFileExtension_dotless_lowercase (url path : string) :
  URL_pathname url = Some path ->
  exists ext,
    getFileExtension url = Normal ext
    /\ JS.includes ext "." = false
    /\ JS.toLowerCase ext = ext.
Proof.
  intros Hp. exists (path_extension path).
  split; [apply getFileExtension_path; exact Hp|].
  unfold path_extension. split.
  - rewrite includes_toLowerCase_dot. apply includes_after_last_same.
  - apply toLowerCase_idempotent.
Qed.

(** X3. When the last segment of the path has a dot, [generateFilename]
    returns that segment unchanged, upper-case letters included, whatever
    the clock reads. *)
Theorem generateFilename_keeps_dotted_segment (now : Z) (url path : string) :
  URL_pathname url = Some path ->
  JS.includes (last_segment path) "." = true ->
  generateFilename now url = Normal (last_segment path).
Proof.
  intros Hp Hdot. unfold generateFilename, try_catch. unfold new_URL_pathname at 1.
  rewrite Hp. cbn [cbind]. rewrite pop_split. fold (last_segment path).
  assert (Hseg : JS.or_else (Some (last_segment path)) "download" = last_segment path).
  { unfold JS.or_else. destruct (last_segment path); [discriminate | reflexivity]. }
  rewrite Hseg, Hdot. reflexivity.
Qed.

Lemma includes_append_dot a b : JS.includes (a ++ "." ++ b)%string "." = true.
Proof.
  induction a as [|x a IH]; [reflexivity|].
  change (JS.includes (String x (a ++ "." ++ b)%string) "." = true).
  cbn [JS.includes]. rewrite IH. apply orb_true_r.
Qed.

(** X4. Every filename [generateFilename] returns contains a dot (so it
    is not empty): either the last segment had one, or one is put after
    it. *)
Theorem generateFilename_has_dot (now : Z) (url f : string) :
  generateFilename now url = Normal f ->
  JS.includes f "." = true /\ f <> "".
Proof.
  intros H.
  assert (Hdot : JS.includes f "." = true).
  { destruct (URL_pathname url) as [path|] eqn:Hp.
    - unfold generateFilename, try_catch in H. unfold new_URL_pathname at 1 in H.
      rewrite Hp in H. cbn [cbind] in H.
      destruct (JS.includes (JS.or_else _ "download") ".") eqn:Hseg.
      + injection H as <-. exact Hseg.
      + rewrite (getFileExtension_path _ _ Hp) in H. cbn [cbind] in H.
        injection H as <-. apply includes_append_dot.
    - rewrite (generateFilename_malformed now _ Hp) in H. discriminate. }
  split; [exact Hdot|]. intros ->. discriminate.
Qed.

(* ===================================================================== *)
(** ** More on the queue store                                            *)
(* ===================================================================== *)

Lemma trimStart_blank s : blank s = true -> JS.trimStart s = "".
Proof.
  induction s as [|a s IH]; [reflexivity|].
  cbn [blank JS.trimStart]. intros H. apply andb_true_iff in H.
  destruct H as [-> Hs]. exact (IH Hs).
Qed.

Lemma trim_blank s : blank s = true -> JS.trim s = "".
Proof. intros H. unfold JS.trim. rewrite (trimStart_blank _ H). reflexivity. Qed.

Lemma trimStart_head s :
  JS.trimStart s = "" \/ exists a r, JS.trimStart s = String a r /\ JS.is_space a = false.
Proof.
  induction s as [|a s IH]; [left; reflexivity|].
  cbn [JS.trimStart]. destruct (JS.is_space a) eqn:Ha; [exact IH|].
  right. exists a, s. split; [reflexivity | exact Ha].
Qed.

Lemma trimEnd_idempotent s : JS.trimEnd (JS.trimEnd s) = JS.trimEnd s.
Proof.
  induction s as [|a s IH]; [reflexivity|].
  cbn [JS.trimEnd].
  destruct (JS.is_empty (JS.trimEnd s) && JS.is_space a) eqn:Hc; [reflexivity|].
  cbn [JS.trimEnd]. rewrite IH, Hc. reflexivity.
Qed.

Lemma trimEnd_head a r :
  JS.is_space a = false -> JS.trimEnd (String a r) = String a (JS.trimEnd r).
Proof. intros Ha. cbn [JS.trimEnd]. rewrite Ha, andb_false_r. reflexivity. Qed.

Lemma trim_idempotent s : JS.trim (JS.trim s) = JS.trim s.
Proof.
  unfold JS.trim. destruct (trimStart_head s) as [-> | (a & r & -> & Ha)]; [reflexivity|].
  rewrite (trimEnd_head _ _ Ha). cbn [JS.trimStart]. rewrite Ha.
  rewrite (trimEnd_head _ _ Ha), trimEnd_idempotent. reflexivity.
Qed.

Lemma already_queued_In url items :
  already_queued url items = true <-> exists i, In i items /\ MediaItem.url i = url.
Proof.
  unfold already_queued. rewrite existsb_exists. split.
  - intros (i & Hi & Heq). apply String.eqb_eq in Heq. eauto.
  - intros (i & Hi & Heq). exists i. split; [exact Hi|]. apply String.eqb_eq. exact Heq.
Qed.

Lemma already_queued_map url items :
  already_queued url items = true <-> In url (map MediaItem.url items).
Proof.
  rewrite already_queued_In, in_map_iff. split; intros (i & H1 & H2); eauto.
Qed.

Lemma addMediaItem_malformed now now' url w :
  JS.is_empty (JS.trim url) = false ->
  already_queued (JS.trim url) (mediaItems (state w)) = false ->
  URL_pathname (JS.trim url) = None ->
  addMediaItem now now' url w = (Throw TypeError, w).
Proof.
  intros He Hd Hp.
  unfold addMediaItem. fold (already_queued (JS.trim url) (mediaItems (state w))).
  rewrite He, Hd. cbn [orb]. unfold bind, lift.
  rewrite (getMediaType_malformed _ Hp). reflexivity.
Qed.

(** The three ways [addMediaItem] ends. *)
Lemma addMediaItem_cases now now' url w :
  let t := JS.trim url in
  let items := mediaItems (state w) in
  ((JS.is_empty t = true \/ already_queued t items = true)
   /\ addMediaItem now now' url w = (Normal tt, w))
  \/ (JS.is_empty t = false /\ already_queued t items = false
      /\ URL_pathname t = None
      /\ addMediaItem now now' url w = (Throw TypeError, w))
  \/ (JS.is_empty t = false /\ already_queued t items = false
      /\ exists path ty fn,
           URL_pathname t = Some path
           /\ getMediaType t = Normal ty
           /\ generateFilename now' t = Normal fn
           /\ addMediaItem now now' url w
              = (Normal tt,
                 let items' :=
                   (items ++ [MediaItem.mk (JS.toString now) t ty fn None pending None None])%list in
                 mkWorld (mkState items' (downloadHistory (state w)))
                         (log w ++ [SetMediaItems items'])%list)).
Proof.
  intros t items. unfold t, items.
  destruct (JS.is_empty (JS.trim url)) eqn:He.
  { left. split; [left; reflexivity|]. apply addMediaItem_noop. left. exact He. }
  destruct (already_queued (JS.trim url) (mediaItems (state w))) eqn:Hd.
  { left. split; [right; reflexivity|]. apply addMediaItem_noop. right. exact Hd. }
  right. destruct (URL_pathname (JS.trim url)) as [path|] eqn:Hp.
  - right. split; [reflexivity|]. split; [reflexivity|].
    destruct (addMediaItem_appends now now' url path w He Hd Hp) as (ty & fn & Hty & Hfn & Hrun).
    exists path, ty, fn. repeat split; assumption.
  - left. split; [reflexivity|]. split; [reflexivity|]. split; [reflexivity|].
    apply addMediaItem_malformed; assumption.
Qed.

(** X5. Adding a string of white space only (the empty string included),
    or a string whose trimmed form is the url of a queued item, returns
    normally and does nothing: no state change, no update issued. *)
Theorem addMediaItem_ignores_blank_and_queued (now now' : Z) (url : string) (s : AppState) :
  blank url = true
  \/ (exists i, In i (mediaItems s) /\ MediaItem.url i = JS.trim url) ->
  run (addMediaItem now now' url) s = (Normal tt, mkWorld s []).
Proof.
  intros H. unfold run. apply addMediaItem_noop. cbn [state mediaItems].
  destruct H as [H | H].
  - left. rewrite (trim_blank _ H). reflexivity.
  - right. apply already_queued_In. exact H.
Qed.

(** X6. Adding a url that is not blank, not queued and that parses
    returns normally and puts exactly one item at the end of the queue,
    leaving the items before it and the history as they were: the item is
    pending, without progress, with the trimmed url, the kind and filename
    of that url and the clock reading as id. *)
Theorem addMediaItem_appends_one (now now' : Z) (url path : string) (s : AppState) :
  JS.trim url <> "" ->
  ~ In (JS.trim url) (map MediaItem.url (mediaItems s)) ->
  URL_pathname (JS.trim url) = Some path ->
  fst (run (addMediaItem now now' url) s) = Normal tt /\
  exists new,
    step (AddMediaItem now now' url) s
    = mkState (mediaItems s ++ [new])%list (downloadHistory s)
    /\ MediaItem.id new = JS.toString now
    /\ MediaItem.url new = JS.trim url
    /\ getMediaType (JS.trim url) = Normal (MediaItem.type new)
    /\ generateFilename now' (JS.trim url) = Normal (MediaItem.filename new)
    /\ MediaItem.status new = pending
    /\ MediaItem.progress new = None.
Proof.
  intros Hne Hfresh Hp.
  assert (He : JS.is_empty (JS.trim url) = false).
  { destruct (JS.trim url); [contradiction | reflexivity]. }
  assert (Hd : already_queued (JS.trim url) (mediaItems s) = false).
  { destruct (already_queued (JS.trim url) (mediaItems s)) eqn:Hq; [|reflexivity].
    exfalso. apply Hfresh. apply already_queued_map. exact Hq. }
  destruct (addMediaItem_appends now now' url path (mkWorld s []) He Hd Hp)
    as (ty & fn & Hty & Hfn & Hrun).
  cbv zeta in Hrun. cbn [state mediaItems downloadHistory log app] in Hrun.
  unfold step, run. cbn [exec]. rewrite Hrun. cbn [fst snd state].
  split; [reflexivity|].
  eexists. split; [reflexivity|]. cbn. repeat split; assumption.
Qed.

Lemma subsequence_filter {A} (p : A -> bool) (l : list A) : subsequence (filter p l) l.
Proof.
  induction l as [|x l IH]; [constructor|].
  cbn [filter]. destruct (p x); constructor; exact IH.
Qed.

Lemma filter_all_true {A} (p : A -> bool) (l : list A) :
  (forall x, In x l -> p x = true) -> filter p l = l.
Proof.
  induction l as [|x l IH]; intros H; [reflexivity|].
  cbn [filter]. rewrite (H x) by (left; reflexivity).
  f_equal. apply IH. intros y Hy. apply H. right. exact Hy.
Qed.

Lemma filter_idempotent {A} (p : A -> bool) (l : list A) :
  filter p (filter p l) = filter p l.
Proof.
  apply filter_all_true. intros x Hx. apply filter_In in Hx. apply Hx.
Qed.

Lemma lookup_None id items :
  lookup id items = None <-> forall i, In i items -> MediaItem.id i <> id.
Proof.
  unfold lookup. split.
  - intros H i Hi Hid. apply (find_none _ _ H) in Hi.
    rewrite Hid, String.eqb_refl in Hi. discriminate.
  - intros H. destruct (find _ items) as [i|] eqn:Hf; [|reflexivity].
    apply find_some in Hf. destruct Hf as [Hi Hid].
    apply String.eqb_eq in Hid. exfalso. exact (H i Hi Hid).
Qed.

(** X8. [removeMediaItem(id)] leaves no item with that id, keeps every
    other item, in the order they had, and does not touch the history; on
    an id that no item has it changes nothing. *)
Theorem removeMediaItem_removes_exactly (id : string) (s : AppState) :
  let s' := step (RemoveMediaItem id) s in
  lookup id (mediaItems s') = None /\
  (forall i, In i (mediaItems s') <-> In i (mediaItems s) /\ MediaItem.id i <> id) /\
  subsequence (mediaItems s') (mediaItems s) /\
  downloadHistory s' = downloadHistory s /\
  (lookup id (mediaItems s) = None -> s' = s).
Proof.
  intros s'.
  assert (Hitems : mediaItems s'
                   = filter (fun item => negb (String.eqb (MediaItem.id item) id)) (mediaItems s))
    by reflexivity.
  assert (Hin : forall i, In i (mediaItems s') <-> In i (mediaItems s) /\ MediaItem.id i <> id).
  { intros i. rewrite Hitems, filter_In. split; intros [Hi Hne]; (split; [exact Hi|]).
    - intros Heq. rewrite Heq, String.eqb_refl in Hne. discriminate.
    - destruct (String.eqb (MediaItem.id i) id) eqn:Heq; [|reflexivity].
      apply String.eqb_eq in Heq. contradiction. }
  split; [|split; [exact Hin|split; [|split; [reflexivity|]]]].
  - apply lookup_None. intros i Hi. apply Hin in Hi. apply Hi.
  - rewrite Hitems. apply subsequence_filter.
  - intros Hnone. destruct s as [items h]. unfold s', step, run. cbn.
    f_equal. apply filter_all_true. intros i Hi.
    rewrite lookup_None in Hnone. specialize (Hnone i Hi).
    destruct (String.eqb (MediaItem.id i) id) eqn:Heq; [|reflexivity].
    apply String.eqb_eq in Heq. contradiction.
Qed.

(** X9. [clearCompleted] leaves no completed item, keeps every other
    item, in the order they had, and does not touch the history; a second
    [clearCompleted] changes nothing, nor does a first one on a queue
    without completed items. *)
Theorem clearCompleted_removes_exactly (s : AppState) :
  let s' := step ClearCompleted s in
  (forall i, In i (mediaItems s') <->
             In i (mediaItems s) /\ MediaItem.status i <> completed) /\
  subsequence (mediaItems s') (mediaItems s) /\
  downloadHistory s' = downloadHistory s /\
  step ClearCompleted s' = s' /\
  ((forall i, In i (mediaItems s) -> MediaItem.status i <> completed) -> s' = s).
Proof.
  intros s'.
  assert (Hitems : mediaItems s'
                   = filter (fun item => negb (Status_eqb (MediaItem.status item) completed))
                            (mediaItems s))
    by reflexivity.
  assert (Hneg : forall i, negb (Status_eqb (MediaItem.status i) completed) = true
                           <-> MediaItem.status i <> completed).
  { intros i. rewrite negb_true_iff. split.
    - intros H Heq. rewrite Heq in H. discriminate.
    - intros H. destruct (Status_eqb _ _) eqn:Heq; [|reflexivity].
      apply Status_eqb_eq in Heq. contradiction. }
  split; [|split; [|split; [reflexivity|split]]].
  - intros i. rewrite Hitems, filter_In, Hneg. reflexivity.
  - rewrite Hitems. apply subsequence_filter.
  - unfold s', step, run. cbn. f_equal. apply filter_idempotent.
  - intros Hnone. destruct s as [items h]. unfold s', step, run. cbn.
    f_equal. apply filter_all_true. intros i Hi. apply Hneg. apply Hnone. exact Hi.
Qed.

(* ===================================================================== *)
(** ** Invariants of the reachable states                                 *)
(* ===================================================================== *)

Lemma finish_type env i : MediaItem.type (finish env i) = MediaItem.type i.
Proof.
  unfold finish. destruct (transfer_succeeds env), (transfer_progress env); reflexivity.
Qed.

Lemma finish_filename env i : MediaItem.filename (finish env i) = MediaItem.filename i.
Proof.
  unfold finish. destruct (transfer_succeeds env), (transfer_progress env); reflexivity.
Qed.

Lemma finish_settled env i : settled (finish env i).
Proof.
  unfold settled, finish. destruct (transfer_succeeds env).
  - reflexivity.
  - unfold fail_item. cbn [MediaItem.status MediaItem.with_status MediaItem.progress].
    rewrite progress_progressed_start. eauto.
Qed.

Lemma apply_runs_preserves (P : MediaItem.t -> Prop) envs pend :
  (forall env i, P i -> P (finish env i)) ->
  forall k i, P i -> P (apply_runs envs k pend i).
Proof.
  intros HP. induction pend as [|p rest IH]; intros k i Hi; [exact Hi|].
  cbn [apply_runs]. apply IH.
  destruct (String.eqb _ _); [apply HP|]; exact Hi.
Qed.

Lemma apply_runs_type_filename envs pend : forall k i,
  MediaItem.type (apply_runs envs k pend i) = MediaItem.type i
  /\ MediaItem.filename (apply_runs envs k pend i) = MediaItem.filename i.
Proof.
  induction pend as [|p rest IH]; intros k i; [split; reflexivity|].
  cbn [apply_runs]. destruct (String.eqb _ _).
  - destruct (IH (S k) (finish (envs k) i)) as [-> ->].
    rewrite finish_type, finish_filename. split; reflexivity.
  - apply IH.
Qed.

(** What each command makes of the queue. *)
Lemma step_items (c : command) (s : AppState) :
  mediaItems (step c s)
  = match c with
    | AddMediaItem now now' url =>
        mediaItems (state (snd (addMediaItem now now' url (mkWorld s []))))
    | RemoveMediaItem id =>
        filter (fun item => negb (String.eqb (MediaItem.id item) id)) (mediaItems s)
    | DownloadFile env item =>
        update_by_id (MediaItem.id item) (finish env) (mediaItems s)
    | DownloadAll envs =>
        map (apply_runs envs 0
               (filter (fun item => Status_eqb (MediaItem.status item) pending)
                       (mediaItems s)))
            (mediaItems s)
    | ClearCompleted =>
        filter (fun item => negb (Status_eqb (MediaItem.status item) completed))
               (mediaItems s)
    | ClearHistory => mediaItems s
    end.
Proof.
  destruct c as [now now' url | id | env item | envs | |]; try reflexivity.
  - unfold step, run. cbn [exec]. rewrite downloadFile_run. cbn [snd].
    apply (after_run_items env item (mkWorld s [])).
  - unfold step, run. cbn [exec]. unfold downloadAll. rewrite download_each_run.
    cbn [snd]. apply (after_batch_items envs _ 0%nat (mkWorld s [])).
Qed.

(** The closed form of [generateFilename] on a URL that parses. *)
Lemma generateFilename_path now url path :
  URL_pathname url = Some path ->
  generateFilename now url
  = Normal (let segment := JS.or_else (Some (last_segment path)) "download" in
            if JS.includes segment "." then segment
            else (segment ++ "." ++ path_extension path)%string).
Proof.
  intros Hp. unfold generateFilename, try_catch. unfold new_URL_pathname at 1.
  rewrite Hp. cbn [cbind]. rewrite pop_split. fold (last_segment path). cbv zeta.
  destruct (JS.includes _ "."); [reflexivity|].
  rewrite (getFileExtension_path _ _ Hp). reflexivity.
Qed.

Lemma new_item_derived now now' t path ty fn :
  JS.is_empty t = false -> JS.trim t = t ->
  URL_pathname t = Some path ->
  getMediaType t = Normal ty ->
  generateFilename now' t = Normal fn ->
  derived (MediaItem.mk (JS.toString now) t ty fn None pending None None).
Proof.
  intros He Ht Hp Hty Hfn. unfold derived. cbn [MediaItem.url MediaItem.type MediaItem.filename].
  split; [exact Ht|]. split; [intros ->; discriminate|].
  split; [eauto|]. split; [exact Hty|].
  intros now2. rewrite <- Hfn, !(generateFilename_path _ _ _ Hp). reflexivity.
Qed.

Lemma finish_derived env i : derived i -> derived (finish env i).
Proof.
  unfold derived. rewrite finish_url, finish_type, finish_filename. intros H. exact H.
Qed.

(** A property of items that additions establish and runs keep holds of
    every item of every reachable state. *)
Lemma reachable_Forall (P : MediaItem.t -> Prop) :
  (forall env i, P i -> P (finish env i)) ->
  (forall now now' t path ty fn,
     JS.is_empty t = false -> JS.trim t = t -> URL_pathname t = Some path ->
     getMediaType t = Normal ty -> generateFilename now' t = Normal fn ->
     P (MediaItem.mk (JS.toString now) t ty fn None pending None None)) ->
  forall s, reachable s -> Forall P (mediaItems s).
Proof.
  intros Hfinish Hnew s Hs. induction Hs as [|c s _ IH]; [constructor|].
  rewrite step_items. destruct c as [now now' url | id | env item | envs | |].
  - destruct (addMediaItem_cases now now' url (mkWorld s []))
      as [[_ Hrun] | [(_ & _ & _ & Hrun) | (He & _ & path & ty & fn & Hp & Hty & Hfn & Hrun)]];
      cbv zeta in Hrun; rewrite Hrun; cbn [snd state mediaItems]; try exact IH.
    apply Forall_app. split; [exact IH|]. constructor; [|constructor].
    apply (Hnew now now' _ path ty fn He (trim_idempotent url) Hp Hty Hfn).
  - apply Forall_forall. intros i Hi. apply filter_In in Hi.
    rewrite Forall_forall in IH. apply IH. apply Hi.
  - unfold update_by_id. apply Forall_forall. intros i Hi.
    apply in_map_iff in Hi. destruct Hi as (j & <- & Hj).
    rewrite Forall_forall in IH. specialize (IH j Hj).
    destruct (String.eqb _ _); [apply Hfinish|]; exact IH.
  - apply Forall_forall. intros i Hi.
    apply in_map_iff in Hi. destruct Hi as (j & <- & Hj).
    rewrite Forall_forall in IH. apply apply_runs_preserves; [exact Hfinish|].
    apply IH. exact Hj.
  - apply Forall_forall. intros i Hi. apply filter_In in Hi.
    rewrite Forall_forall in IH. apply IH. apply Hi.
  - exact IH.
Qed.

Lemma urls_distinct_filter (keep : MediaItem.t -> bool) (items : list MediaItem.t) :
  NoDup (map MediaItem.url items) ->
  NoDup (map MediaItem.url (filter keep items)).
Proof.
  intros Hnd. induction items as [|x items IH]; [constructor|].
  cbn [map] in Hnd. inversion Hnd as [|y ys Hnotin Hrest]; subst.
  cbn [filter]. destruct (keep x); [|exact (IH Hrest)].
  cbn [map]. constructor; [|exact (IH Hrest)].
  intros Hin. apply Hnotin. apply in_map_iff in Hin. destruct Hin as (z & Hz & Hin).
  apply filter_In in Hin. apply in_map_iff. exists z. split; [exact Hz | apply Hin].
Qed.

Lemma map_url_update_by_id id f items :
  (forall i, MediaItem.url (f i) = MediaItem.url i) ->
  map MediaItem.url (update_by_id id f items) = map MediaItem.url items.
Proof.
  intros Hf. unfold update_by_id. rewrite map_map. apply map_ext.
  intros i. destruct (String.eqb _ _); [apply Hf | reflexivity].
Qed.

Lemma map_url_apply_runs envs k pend items :
  map MediaItem.url (map (apply_runs envs k pend) items) = map MediaItem.url items.
Proof. rewrite map_map. apply map_ext. intros i. apply apply_runs_keeps. Qed.

(** X11. In every reachable state each queued item still carries what
    was computed from its url when it was added: the url is trimmed, not
    empty and parses, the kind is [getMediaType] of it and the filename
    [generateFilename] of it (at any time). *)
Theorem reachable_items_derived (s : AppState) :
  reachable s -> Forall derived (mediaItems s).
Proof.
  apply reachable_Forall.
  - apply finish_derived.
  - intros now now' t path ty fn. apply new_item_derived.
Qed.

(* ===================================================================== *)
(** ** More on a run of [downloadFile]                                    *)
(* ===================================================================== *)

Lemma saves_app l1 l2 : saves (l1 ++ l2) = (saves l1 ++ saves l2)%list.
Proof.
  induction l1 as [|e l1 IH]; [reflexivity|].
  destruct e; simpl; rewrite IH; reflexivity.
Qed.

Lemma saves_map snaps : saves (map SetMediaItems snaps) = [].
Proof. induction snaps as [|x snaps IH]; simpl; [reflexivity | exact IH]. Qed.

Lemma console_errors_app l1 l2 :
  console_errors (l1 ++ l2) = (console_errors l1 ++ console_errors l2)%list.
Proof.
  induction l1 as [|e l1 IH]; [reflexivity|].
  destruct e; simpl; rewrite IH; reflexivity.
Qed.

Lemma console_errors_map snaps : console_errors (map SetMediaItems snaps) = [].
Proof. induction snaps as [|x snaps IH]; simpl; [reflexivity | exact IH]. Qed.

Lemma transfer_result_delivered env cs :
  transfer_result env = Normal cs -> cs = delivered env.
Proof.
  unfold transfer_result, delivered.
  destruct (fetched env) as [|r]; [discriminate|].
  destruct (ok r); [|discriminate].
  destruct (body r) as [b|]; [|intros H; injection H as <-; reflexivity].
  destruct (ending b); [|discriminate].
  intros H. injection H as <-. reflexivity.
Qed.

(** X13. What a run does to the outside: it fetches the item's url, once,
    and awaits no delay; when the transfer succeeds it saves one file,
    under the item's filename, holding the delivered chunks in the order
    they came, and logs no error; when the transfer fails it saves
    nothing and logs the one error that was thrown: the rejection of
    [fetch], the HTTP status, or the rejection of the read. *)
Theorem downloadFile_effects (env : run_env) (item : MediaItem.t) (s : AppState) :
  let w := snd (run (downloadFile env item) s) in
  fetches (log w) = [MediaItem.url item] /\
  delays (log w) = [] /\
  saves (log w)
  = (if transfer_succeeds env
     then [(MediaItem.filename item, List.concat (delivered env))]
     else []) /\
  console_errors (log w)
  = match fetched env with
    | Rejected => [NetworkError]
    | Resolved r =>
        if ok r then
          match body r with
          | Some b => match ending b with
                      | EndOfStream => []
                      | ReadRejects => [StreamError]
                      end
          | None => []
          end
        else [HttpError (status_code r)]
    end.
Proof.
  intros w. unfold w, run. rewrite downloadFile_run. cbn [snd].
  destruct (after_run_block env item s) as (Hf & Hd & _).
  split; [exact Hf|]. split; [exact Hd|].
  unfold after_run, transfer_succeeds.
  destruct (transfer_result env) as [cs|e] eqn:Hres;
    cbn [log app saves console_errors];
    rewrite saves_app, console_errors_app, saves_map, console_errors_map;
    cbn [saves console_errors app].
  - rewrite (transfer_result_delivered _ _ Hres). split; [reflexivity|].
    unfold transfer_result in Hres.
    destruct (fetched env) as [|r]; [discriminate|].
    destruct (ok r); [|discriminate].
    destruct (body r) as [b|]; [|reflexivity].
    destruct (ending b); [reflexivity | discriminate].
  - split; [reflexivity|].
    unfold transfer_result in Hres.
    destruct (fetched env) as [|r]; [congruence|].
    destruct (ok r); [|congruence].
    destruct (body r) as [b|]; [|discriminate].
    destruct (ending b); [discriminate | congruence].
Qed.

(** X14. A run keeps the queue's order and length and never changes the
    id, url, kind or filename of an item; the items whose id is not the
    one of the item it was given are left exactly as they were. *)
Theorem downloadFile_frame (env : run_env) (item : MediaItem.t) (s : AppState) :
  let w := snd (run (downloadFile env item) s) in
  Forall2 (fun before after =>
             MediaItem.id after = MediaItem.id before
             /\ MediaItem.url after = MediaItem.url before
             /\ MediaItem.type after = MediaItem.type before
             /\ MediaItem.filename after = MediaItem.filename before
             /\ (MediaItem.id before <> MediaItem.id item -> after = before))
          (mediaItems s) (mediaItems (state w)).
Proof.
  intros w. unfold w, run. rewrite downloadFile_run. cbn [snd].
  rewrite after_run_items. cbn [state mediaItems]. unfold update_by_id.
  apply Forall2_map_In. intros i _.
  destruct (String.eqb (MediaItem.id i) (MediaItem.id item)) eqn:Hid.
  - rewrite finish_id, finish_url, finish_type, finish_filename.
    repeat split. intros Hne. apply String.eqb_eq in Hid. contradiction.
  - repeat split.
Qed.

Lemma map_fixed {A} (g : A -> A) (l : list A) :
  (forall x, In x l -> g x = x) -> map g l = l.
Proof.
  intros H. rewrite <- (map_id l) at 2. apply map_ext_in. exact H.
Qed.

(** X15. A run of an item whose id is no longer in the queue (it was
    removed meanwhile) leaves the queue as it is, and still records the
    download in the history when the transfer succeeds. *)
Theorem downloadFile_removed_item (env : run_env) (item : MediaItem.t) (s : AppState) :
  lookup (MediaItem.id item) (mediaItems s) = None ->
  let w := snd (run (downloadFile env item) s) in
  fst (run (downloadFile env item) s) = Normal tt /\
  mediaItems (state w) = mediaItems s /\
  downloadHistory (state w)
  = if transfer_succeeds env
    then history_entry env item :: firstn 49 (downloadHistory s)
    else downloadHistory s.
Proof.
  intros Hnone w. split; [apply downloadFile_returns|].
  unfold w, run. rewrite downloadFile_run. cbn [snd].
  rewrite after_run_items, after_run_history. cbn [state mediaItems downloadHistory].
  split; [|reflexivity].
  unfold update_by_id. apply map_fixed. intros i Hi.
  rewrite lookup_None in Hnone. specialize (Hnone i Hi).
  destruct (String.eqb _ _) eqn:Hid; [|reflexivity].
  apply String.eqb_eq in Hid. contradiction.
Qed.

Lemma progress_values_running t cs : 0 < t -> forall received,
  progress_values (Some t) received cs
  = map (fun r => percentage r t) (running_totals received cs).
Proof.
  intros Ht. induction cs as [|v cs IH]; intros received; [reflexivity|].
  cbn [progress_values running_totals map positive].
  assert (Hpos : (0 <? t) = true) by (apply Z.ltb_lt; exact Ht).
  rewrite Hpos, IH. reflexivity.
Qed.

Lemma last_running_totals cs : forall received d,
  cs <> [] -> last (running_totals received cs) d = received + total_bytes cs.
Proof.
  induction cs as [|v cs IH]; intros received d Hne; [contradiction|].
  cbn [running_totals total_bytes fold_right]. rewrite last_cons.
  destruct cs as [|v' cs]; [cbn; lia|].
  rewrite IH by discriminate. cbn [total_bytes fold_right]. lia.
Qed.

Lemma last_map_default {A B} (f : A -> B) (l : list A) (d : A) :
  last (map f l) (f d) = f (last l d).
Proof.
  induction l as [|x l IH]; [reflexivity|].
  destruct l as [|y l]; [reflexivity|]. exact IH.
Qed.

Lemma percentage_full t : 0 < t -> percentage t t = 100%Q.
Proof.
  intros Ht. unfold percentage.
  change 100%Q with (Qred 100) at 2. apply Qred_complete.
  unfold Qdiv. rewrite Qmult_inv_r; [reflexivity|].
  unfold Qeq. simpl. lia.
Qed.

(* ===================================================================== *)
(** ** More on [downloadAll]                                              *)
(* ===================================================================== *)

Lemma after_run_step env item w :
  state (after_run env item w) = step (DownloadFile env item) (state w).
Proof.
  unfold step, run. cbn [exec]. rewrite downloadFile_run. cbn [snd].
  apply after_run_log.
Qed.

Lemma after_batch_state envs items : forall k w,
  state (after_batch envs k items w) = run_each envs k items (state w).
Proof.
  induction items as [|item rest IH]; intros k w; [reflexivity|].
  cbn [after_batch run_each]. rewrite IH. cbn [delayed state].
  rewrite after_run_step. reflexivity.
Qed.

(** X17. A batch leaves the queue and the history exactly as the single
    downloads of the items that were pending when it started would, run
    one after the other in queue order, each on the record the batch took
    at its start. *)
Theorem downloadAll_is_downloads_in_sequence (envs : nat -> run_env) (s : AppState) :
  step (DownloadAll envs) s
  = run_each envs 0
      (filter (fun item => Status_eqb (MediaItem.status item) pending) (mediaItems s)) s.
Proof.
  unfold step at 1, run. cbn [exec]. unfold downloadAll. rewrite download_each_run.
  cbn [snd]. apply (after_batch_state envs _ 0%nat (mkWorld s [])).
Qed.

Lemma apply_runs_not_pending envs pend : forall k i,
  MediaItem.status i <> pending ->
  MediaItem.status (apply_runs envs k pend i) <> pending.
Proof.
  induction pend as [|p rest IH]; intros k i Hi; [exact Hi|].
  cbn [apply_runs]. apply IH. destruct (String.eqb _ _); [|exact Hi].
  rewrite finish_status. destruct (transfer_succeeds (envs k)); discriminate.
Qed.

Lemma filter_none {A} (p : A -> bool) (l : list A) :
  (forall x, In x l -> p x = false) -> filter p l = [].
Proof.
  induction l as [|x l IH]; intros H; [reflexivity|].
  cbn [filter]. rewrite (H x) by (left; reflexivity).
  apply IH. intros y Hy. apply H. right. exact Hy.
Qed.

Lemma downloadAll_nothing_pending envs s :
  Forall (fun i => MediaItem.status i <> pending) (mediaItems s) ->
  run (downloadAll envs) s = (Normal tt, mkWorld s []).
Proof.
  intros H. unfold run, downloadAll. cbn [state mediaItems].
  rewrite filter_none; [reflexivity|].
  intros i Hi. rewrite Forall_forall in H. specialize (H i Hi).
  destruct (Status_eqb _ _) eqn:Heq; [|reflexivity].
  apply Status_eqb_eq in Heq. contradiction.
Qed.

(** X18. After a batch no item is pending, whatever the transfers did and
    whatever the ids are; and a batch started on a queue without pending
    items does nothing at all: no fetch, no delay, no state change.  So a
    second batch right after a first one does nothing. *)
Theorem downloadAll_leaves_nothing_pending (envs envs' : nat -> run_env) (s : AppState) :
  let s' := state (snd (run (downloadAll envs) s)) in
  Forall (fun i => MediaItem.status i <> pending) (mediaItems s') /\
  run (downloadAll envs') s' = (Normal tt, mkWorld s' []) /\
  (Forall (fun i => MediaItem.status i <> pending) (mediaItems s) ->
   run (downloadAll envs) s = (Normal tt, mkWorld s [])).
Proof.
  intros s'.
  assert (Hnone : Forall (fun i => MediaItem.status i <> pending) (mediaItems s')).
  { unfold s', run, downloadAll. rewrite download_each_run. cbn [snd].
    rewrite after_batch_items. cbn [state mediaItems].
    apply Forall_forall. intros i' Hi'. apply in_map_iff in Hi'.
    destruct Hi' as (i & <- & Hi).
    destruct (Status_eqb (MediaItem.status i) pending) eqn:Hst.
    - assert (Hterm : terminal (MediaItem.status
                (apply_runs envs 0
                   (filter (fun item => Status_eqb (MediaItem.status item) pending)
                           (mediaItems s)) i))).
      { apply apply_runs_terminal. exists i. split; [|reflexivity].
        apply filter_In. split; assumption. }
      destruct Hterm as [-> | ->]; discriminate.
    - apply apply_runs_not_pending. intros Heq. rewrite Heq in Hst. discriminate. }
  split; [exact Hnone|]. split; apply downloadAll_nothing_pending; assumption.
Qed.

Lemma after_run_pushes env item w :
  history_pushes (log (after_run env item w))
  = (history_pushes (log w) + if transfer_succeeds env then 1 else 0)%nat.
Proof.
  unfold after_run, transfer_succeeds.
  destruct (transfer_result env); cbn [log];
    rewrite !history_pushes_app, history_pushes_map; cbn [history_pushes]; lia.
Qed.

Lemma after_batch_entries envs items : forall k w,
  (List.length (downloadHistory (state w)) <= 50)%nat ->
  downloadHistory (state (after_batch envs k items w))
  = firstn 50 (rev (batch_entries envs k items) ++ downloadHistory (state w))%list
  /\ history_pushes (log (after_batch envs k items w))
     = (history_pushes (log w) + List.length (batch_entries envs k items))%nat.
Proof.
  induction items as [|item rest IH]; intros k w Hlen.
  - cbn [after_batch batch_entries rev app List.length].
    split; [symmetry; apply firstn_all2; exact Hlen | lia].
  - cbn [after_batch batch_entries].
    destruct (IH (S k) (delayed (after_run (envs k) item w))) as [Hh Hn].
    { cbn [delayed state]. rewrite after_run_history.
      destruct (transfer_succeeds (envs k)); [apply bounded_push_length | exact Hlen]. }
    rewrite Hh, Hn. cbn [delayed state log].
    rewrite history_pushes_app, after_run_pushes, after_run_history.
    cbn [history_pushes]. rewrite length_app.
    destruct (transfer_succeeds (envs k)); cbn [List.length app].
    + split; [|lia].
      rewrite bounded_push_firstn, firstn_app_firstn by lia.
      cbn [rev]. rewrite <- app_assoc. reflexivity.
    + split; [reflexivity | lia].
Qed.

(** X19. A batch pushes one history entry per run whose transfer
    succeeds and none for the others; afterwards the log holds these
    entries, the latest first, in front of the previous entries, cut at
    50. *)
Theorem downloadAll_history (envs : nat -> run_env) (s : AppState) :
  (List.length (downloadHistory s) <= 50)%nat ->
  let pendingItems :=
    filter (fun item => Status_eqb (MediaItem.status item) pending) (mediaItems s) in
  let w := snd (run (downloadAll envs) s) in
  history_pushes (log w) = List.length (batch_entries envs 0 pendingItems) /\
  downloadHistory (state w)
  = firstn 50 (rev (batch_entries envs 0 pendingItems) ++ downloadHistory s)%list.
Proof.
  intros Hlen pendingItems w. unfold w, run, downloadAll. rewrite download_each_run.
  cbn [snd].
  destruct (after_batch_entries envs pendingItems 0%nat (mkWorld s []) Hlen) as [Hh Hn].
  split; [exact Hn | exact Hh].
Qed.

(* ===================================================================== *)
(** ** Input handlers                                                     *)
(* ===================================================================== *)

Lemma trimEnd_startsWith p : spaceless p = true -> forall s,
  JS.startsWith s p = true -> JS.startsWith (JS.trimEnd s) p = true.
Proof.
  induction p as [|b p IH]; intros Hp s Hs; [destruct (JS.trimEnd s); reflexivity|].
  cbn [spaceless] in Hp. apply andb_true_iff in Hp. destruct Hp as [Hb Hp].
  destruct s as [|a s]; [discriminate|].
  cbn [JS.startsWith] in Hs. apply andb_true_iff in Hs. destruct Hs as [Hab Hs].
  assert (a = b) by (apply Ascii.eqb_eq; exact Hab). subst a.
  apply negb_true_iff in Hb. rewrite (trimEnd_head _ _ Hb).
  cbn [JS.startsWith]. rewrite Hab. apply (IH Hp). exact Hs.
Qed.

Lemma trim_startsWith p s :
  spaceless p = true -> p <> "" ->
  JS.startsWith s p = true -> JS.startsWith (JS.trim s) p = true.
Proof.
  intros Hp Hne Hs. unfold JS.trim.
  assert (Hstart : JS.trimStart s = s).
  { destruct p as [|b p]; [contradiction|]. destruct s as [|a s]; [discriminate|].
    cbn [spaceless] in Hp. apply andb_true_iff in Hp. destruct Hp as [Hb _].
    cbn [JS.startsWith] in Hs. apply andb_true_iff in Hs. destruct Hs as [Hab _].
    assert (a = b) by (apply Ascii.eqb_eq; exact Hab). subst a.
    apply negb_true_iff in Hb. cbn [JS.trimStart]. rewrite Hb. reflexivity. }
  rewrite Hstart. apply trimEnd_startsWith; assumption.
Qed.

Lemma startsWith_not_empty s p : p <> "" -> JS.startsWith s p = true -> JS.is_empty s = false.
Proof.
  intros Hne Hs. destruct p; [contradiction|]. destruct s; [discriminate | reflexivity].
Qed.

Lemma looks_like_url_trim text :
  looks_like_url text = true -> looks_like_url (JS.trim text) = true.
Proof.
  unfold looks_like_url. intros H. apply andb_true_iff in H. destruct H as [_ H].
  apply orb_true_iff in H. destruct H as [H | H].
  - pose proof (trim_startsWith "http://" text eq_refl ltac:(discriminate) H) as Ht.
    rewrite Ht, (startsWith_not_empty _ "http://" ltac:(discriminate) Ht). reflexivity.
  - pose proof (trim_startsWith "https://" text eq_refl ltac:(discriminate) H) as Ht.
    rewrite Ht, (startsWith_not_empty _ "https://" ltac:(discriminate) Ht).
    apply orb_true_r.
Qed.

Lemma trimStart_empty_blank s : JS.trimStart s = "" -> blank s = true.
Proof.
  induction s as [|a s IH]; [reflexivity|].
  cbn [JS.trimStart blank]. destruct (JS.is_space a); [exact IH | discriminate].
Qed.

Lemma is_empty_trim s : JS.is_empty (JS.trim s) = blank s.
Proof.
  destruct (blank s) eqn:Hb; [rewrite (trim_blank _ Hb); reflexivity|].
  unfold JS.trim. destruct (trimStart_head s) as [He | (a & r & Hs & Ha)].
  - rewrite (trimStart_empty_blank _ He) in Hb. discriminate.
  - rewrite Hs, (trimEnd_head _ _ Ha). reflexivity.
Qed.

(** How a call of [addMediaItem] leaves the world. *)
Lemma addMediaItem_outcome now now' url w :
  let r := addMediaItem now now' url w in
  downloadHistory (state (snd r)) = downloadHistory (state w)
  /\ (mediaItems (state (snd r)) = mediaItems (state w)
      \/ exists new,
           mediaItems (state (snd r)) = (mediaItems (state w) ++ [new])%list
           /\ MediaItem.url new = JS.trim url
           /\ MediaItem.status new = pending)
  /\ (fst r = Normal tt
      \/ (fst r = Throw TypeError /\ snd r = w
          /\ blank url = false /\ URL_pathname (JS.trim url) = None)).
Proof.
  cbv zeta.
  destruct (addMediaItem_cases now now' url w)
    as [[_ Hrun] | [(He & _ & Hp & Hrun) | (_ & _ & path & ty & fn & _ & _ & _ & Hrun)]];
    cbv zeta in Hrun; rewrite Hrun; cbn [fst snd state mediaItems downloadHistory].
  - split; [reflexivity|]. split; left; reflexivity.
  - split; [reflexivity|]. split; [left; reflexivity|]. right.
    rewrite is_empty_trim in He. repeat split; assumption.
  - split; [reflexivity|]. split; [|left; reflexivity].
    right. eexists. split; [reflexivity|]. split; reflexivity.
Qed.

(** X20. [handleDrop] always switches the drop highlight off and keeps
    the input text, also when it throws.  It leaves the history alone and
    the queue either as it was or with one more pending item at its end,
    whose url is the trimmed text and begins with [http://] or
    [https://].  It throws, a [TypeError] that nothing catches, exactly
    when the text passes the prefix test and [new URL] rejects its
    trimmed form while it is not queued; the state is then unchanged. *)
Theorem handleDrop_outcome (now now' : Z) (text : string) (ui : InputState) (w : world) :
  let r := handleDrop now now' text ui w in
  let ui' := fst (snd r) in
  let w' := snd (snd r) in
  dragActive ui' = false /\
  urlInput ui' = urlInput ui /\
  downloadHistory (state w') = downloadHistory (state w) /\
  (mediaItems (state w') = mediaItems (state w)
   \/ exists new,
        mediaItems (state w') = (mediaItems (state w) ++ [new])%list
        /\ MediaItem.url new = JS.trim text
        /\ looks_like_url (MediaItem.url new) = true
        /\ MediaItem.status new = pending) /\
  (fst r = Normal tt
   \/ (fst r = Throw TypeError /\ w' = w
       /\ looks_like_url text = true /\ URL_pathname (JS.trim text) = None)).
Proof.
  cbv zeta. unfold handleDrop.
  destruct (looks_like_url text) eqn:Hlook.
  - pose proof (addMediaItem_outcome now now' text w) as Hadd. cbv zeta in Hadd.
    destruct (addMediaItem now now' text w) as [c w1].
    cbn [fst snd dragActive urlInput] in *.
    destruct Hadd as (Hh & Hitems & Hres).
    split; [reflexivity|]. split; [reflexivity|]. split; [exact Hh|]. split.
    + destruct Hitems as [Hsame | (new & Happ & Hurl & Hst)]; [left; exact Hsame|].
      right. exists new. split; [exact Happ|]. split; [exact Hurl|].
      split; [|exact Hst]. rewrite Hurl. apply looks_like_url_trim. exact Hlook.
    + destruct Hres as [Hok | (Hthrow & Hw & _ & Hp)]; [left; exact Hok|].
      right. repeat split; assumption.
  - cbn [fst snd dragActive urlInput].
    split; [reflexivity|]. split; [reflexivity|]. split; [reflexivity|].
    split; left; reflexivity.
Qed.



(* ===================================================================== *)
(** ** What the view offers                                               *)
(* ===================================================================== *)

(** X23. With distinct ids in the queue, no command the view offers
    changes an item that is completed or in error: after the command the
    item is still in the queue, the same record, unless the command
    removed it (its own remove button, or "Clear Completed" for a
    completed item). *)
Theorem terminal_items_only_leave (c : command) (s : AppState) (i : MediaItem.t) :
  NoDup (map MediaItem.id (mediaItems s)) ->
  offered s c ->
  In i (mediaItems s) ->
  terminal (MediaItem.status i) ->
  In i (mediaItems (step c s))
  \/ c = RemoveMediaItem (MediaItem.id i)
  \/ (c = ClearCompleted /\ MediaItem.status i = completed).
Proof.
  intros Hnd Hoff Hi Hterm. rewrite step_items.
  assert (Hnp : MediaItem.status i <> pending)
    by (destruct Hterm as [-> | ->]; discriminate).
  destruct c as [now now' url | id | env item | envs | |].
  - left. pose proof (addMediaItem_outcome now now' url (mkWorld s [])) as Hadd.
    cbv zeta in Hadd. cbn [state mediaItems] in Hadd.
    destruct Hadd as (_ & [-> | (new & -> & _)] & _); [exact Hi|].
    apply in_or_app. left. exact Hi.
  - destruct (String.eqb (MediaItem.id i) id) eqn:Hid.
    + right. left. apply String.eqb_eq in Hid. rewrite Hid. reflexivity.
    + left. apply filter_In. split; [exact Hi|]. rewrite Hid. reflexivity.
  - left. cbn [offered] in Hoff. destruct Hoff as [Hitem Hst].
    unfold update_by_id. apply in_map_iff. exists i. split; [|exact Hi].
    destruct (String.eqb (MediaItem.id i) (MediaItem.id item)) eqn:Hid; [|reflexivity].
    apply String.eqb_eq in Hid.
    assert (i = item) by (eapply NoDup_ids_injective; eauto).
    subst item. contradiction.
  - left. apply in_map_iff. exists i. split; [|exact Hi].
    apply apply_runs_untouched. intros p Hp Hid.
    apply filter_In in Hp. destruct Hp as [Hp Hpst].
    assert (p = i) by (eapply NoDup_ids_injective; eauto).
    subst p. apply Status_eqb_eq in Hpst. contradiction.
  - destruct (Status_eqb (MediaItem.status i) completed) eqn:Hst.
    + right. right. split; [reflexivity|]. apply Status_eqb_eq. exact Hst.
    + left. apply filter_In. split; [exact Hi|]. rewrite Hst. reflexivity.
  - left. exact Hi.
Qed.

(* ===================================================================== *)
(** ** Dotless paths, stale renders, runs at rest                         *)
(* ===================================================================== *)

(** C6 (the defect). For a URL whose path has no dot, so that its last
    segment has no extension, [getFileExtension] returns the whole
    lower-cased path, and [getMediaType] answers [video], not [image],
    when that path is one of the video extensions. *)
Theorem getMediaType_dotless_path_video (url path : string) :
  URL_pathname url = Some path ->
  JS.includes path "." = false ->
  In (JS.toLowerCase path) videoExts ->
  segment_extension path = None /\
  getFileExtension url = Normal (JS.toLowerCase path) /\
  getMediaType url = Normal video.
Proof.
  intros Hp Hdot Hin.
  assert (Hext : path_extension path = JS.toLowerCase path).
  { unfold path_extension. rewrite (after_last_without_separator _ _ Hdot). reflexivity. }
  split.
  { unfold segment_extension, last_segment.
    rewrite (includes_after_last "/" "." path Hdot). reflexivity. }
  split.
  { rewrite (getFileExtension_path _ _ Hp), Hext. reflexivity. }
  unfold getMediaType. rewrite (getFileExtension_path _ _ Hp), Hext. cbn [cbind].
  rewrite (videoExts_not_image _ Hin).
  apply includes_In in Hin. rewrite Hin. reflexivity.
Qed.

Lemma addMediaItem_from_current now now' url w :
  addMediaItem now now' url w
  = addMediaItem_from (mediaItems (state w)) now now' url w.
Proof.
  unfold addMediaItem, addMediaItem_from.
  destruct (JS.is_empty (JS.trim url) || existsb _ _); reflexivity.
Qed.

Lemma addMediaItem_from_appends rendered now now' url path w :
  JS.is_empty (JS.trim url) = false ->
  already_queued (JS.trim url) rendered = false ->
  URL_pathname (JS.trim url) = Some path ->
  exists new,
    MediaItem.url new = JS.trim url
    /\ MediaItem.status new = pending
    /\ addMediaItem_from rendered now now' url w
       = (Normal tt,
          mkWorld (mkState (mediaItems (state w) ++ [new])%list (downloadHistory (state w)))
                  (log w ++ [SetMediaItems (mediaItems (state w) ++ [new])%list])%list).
Proof.
  intros He Hd Hp.
  destruct (getMediaType_parsed _ _ Hp) as [ty Hty].
  destruct (generateFilename_parsed now' _ _ Hp) as [fn Hfn].
  exists (MediaItem.mk (JS.toString now) (JS.trim url) ty fn None pending None None).
  split; [reflexivity|]. split; [reflexivity|].
  unfold addMediaItem_from. fold (already_queued (JS.trim url) rendered).
  rewrite He, Hd. cbn [orb]. unfold bind, lift. rewrite Hty, Hfn. reflexivity.
Qed.

(** X7. Whether a second [addMediaItem] of the same new url is ignored
    depends on the render that issues it.  Issued by the render that
    issued the first (whose [mediaItems] does not hold the url yet), it
    appends the url a second time: the queue ends with two items of that
    url.  Issued by a render of the updated queue, it changes nothing. *)
Theorem addMediaItem_twice_by_render
  (now now' now2 now2' : Z) (url path : string) (w : world) :
  JS.trim url <> "" ->
  ~ In (JS.trim url) (map MediaItem.url (mediaItems (state w))) ->
  URL_pathname (JS.trim url) = Some path ->
  let rendered := mediaItems (state w) in
  let w1 := snd (addMediaItem_from rendered now now' url w) in
  (exists a b,
     mediaItems (state (snd (addMediaItem_from rendered now2 now2' url w1)))
     = (rendered ++ [a; b])%list
     /\ MediaItem.url a = JS.trim url /\ MediaItem.url b = JS.trim url) /\
  addMediaItem_from (mediaItems (state w1)) now2 now2' url w1 = (Normal tt, w1).
Proof.
  intros Hne Hfresh Hp rendered w1.
  assert (He : JS.is_empty (JS.trim url) = false).
  { destruct (JS.trim url); [contradiction | reflexivity]. }
  assert (Hd : already_queued (JS.trim url) rendered = false).
  { destruct (already_queued (JS.trim url) rendered) eqn:Hq; [|reflexivity].
    exfalso. apply Hfresh. apply already_queued_map. exact Hq. }
  destruct (addMediaItem_from_appends rendered now now' url path w He Hd Hp)
    as (a & Ha & _ & Hrun1).
  assert (Hw1 : mediaItems (state w1) = (rendered ++ [a])%list).
  { unfold w1. rewrite Hrun1. reflexivity. }
  split.
  - destruct (addMediaItem_from_appends rendered now2 now2' url path w1 He Hd Hp)
      as (b & Hb & _ & Hrun2).
    exists a, b. rewrite Hrun2. cbn [snd state mediaItems].
    rewrite Hw1, <- app_assoc. repeat split; assumption.
  - rewrite <- addMediaItem_from_current. apply addMediaItem_noop. right.
    rewrite Hw1. apply already_queued_app. exact Ha.
Qed.

(** X10. A single command, issued by the render of the state it starts
    from and run to its end, keeps the urls of the queue pairwise
    distinct when they were. *)
Theorem step_keeps_urls_distinct (c : command) (s : AppState) :
  NoDup (map MediaItem.url (mediaItems s)) ->
  NoDup (map MediaItem.url (mediaItems (step c s))).
Proof.
  intros IH. rewrite step_items.
  destruct c as [now now' url | id | env item | envs | |].
  - destruct (addMediaItem_cases now now' url (mkWorld s []))
      as [[_ Hrun] | [(_ & _ & _ & Hrun) | (_ & Hd & path & ty & fn & _ & _ & _ & Hrun)]];
      cbv zeta in Hrun; rewrite Hrun; cbn [snd state mediaItems]; try exact IH.
    rewrite map_app. apply NoDup_app; [exact IH | repeat constructor; intros [] |].
    intros u Hu [<- | []]. cbn [state mediaItems MediaItem.url] in Hd, Hu.
    apply already_queued_map in Hu. rewrite Hu in Hd. discriminate.
  - apply urls_distinct_filter. exact IH.
  - rewrite map_url_update_by_id by (apply finish_url). exact IH.
  - rewrite map_url_apply_runs. exact IH.
  - apply urls_distinct_filter. exact IH.
  - exact IH.
Qed.

(** X12. A run of [downloadFile] leaves no item of its id downloading or
    pending, whatever their status was before: each of them ends
    completed with progress 100 when the transfer succeeded, and in error
    with a progress value when it failed. *)
Theorem downloadFile_leaves_items_at_rest
  (env : run_env) (item i : MediaItem.t) (s : AppState) :
  In i (mediaItems (state (snd (run (downloadFile env item) s)))) ->
  MediaItem.id i = MediaItem.id item ->
  MediaItem.status i = (if transfer_succeeds env then completed else error)
  /\ settled i.
Proof.
  unfold run. rewrite downloadFile_run. cbn [snd]. rewrite after_run_items.
  cbn [state mediaItems]. unfold update_by_id. intros Hin Hid.
  apply in_map_iff in Hin. destruct Hin as (j & Hj & _).
  destruct (String.eqb (MediaItem.id j) (MediaItem.id item)) eqn:Heq.
  - subst i. split; [apply finish_status | apply finish_settled].
  - subst i. rewrite Hid, String.eqb_refl in Heq. discriminate.
Qed.

Lemma shown_progress_run env item s i0 :
  lookup (MediaItem.id item) (mediaItems s) = Some i0 ->
  downloading_progress
    (item_trace (MediaItem.id item)
       (committed (log (snd (run (downloadFile env item) s)))))
  = (0%Q :: transfer_progress env)%list.
Proof.
  intros Hi. destruct (item_trace_run env item s i0 Hi) as [Htr _].
  cbv zeta in Htr. rewrite Htr. apply downloading_progress_run.
  destruct (transfer_succeeds env); unfold complete_item, fail_item;
    cbn [MediaItem.status MediaItem.with_status MediaItem.with_progress];
    discriminate.
Qed.

(** X16. In a run of [downloadFile] whose response has a success status,
    a length header with total [t > 0] and a body, the progress values
    the item shows while it is downloading are the 0 of the start and
    then, after each chunk, the bytes received so far over [t], times
    100; when the chunks add up to exactly [t], the last value shown is
    100. *)
Theorem progress_tracks_received
  (env : run_env) (item i0 : MediaItem.t) (s : AppState)
  (r : response) (b : body_stream) (t : Z) :
  lookup (MediaItem.id item) (mediaItems s) = Some i0 ->
  fetched env = Resolved r ->
  ok r = true ->
  body r = Some b ->
  total_of (content_length r) = Some t ->
  0 < t ->
  let w := snd (run (downloadFile env item) s) in
  let shown :=
    downloading_progress (item_trace (MediaItem.id item) (committed (log w))) in
  shown
  = (0%Q :: map (fun received => percentage received t)
                (running_totals 0 (yields b)))%list /\
  (yields b <> [] -> total_bytes (yields b) = t -> last shown 0%Q = 100%Q).
Proof.
  intros Hi Hf Hok Hb Htot Ht w shown.
  assert (Hprog : transfer_progress env
                  = map (fun received => percentage received t)
                        (running_totals 0 (yields b))).
  { unfold transfer_progress, declared_total, delivered.
    rewrite Hf, Hok, Hb, Htot. apply progress_values_running. exact Ht. }
  assert (Hshown : shown
                   = (0%Q :: map (fun received => percentage received t)
                                 (running_totals 0 (yields b)))%list).
  { unfold shown, w. rewrite (shown_progress_run env item s i0 Hi), Hprog. reflexivity. }
  split; [exact Hshown|].
  intros Hne Hsum. rewrite Hshown, last_cons.
  destruct (yields b) as [|v cs] eqn:Hy; [contradiction|].
  cbn [running_totals map].
  rewrite (last_irrelevant_default _ _ 0%Q (percentage 0 t)).
  change (percentage (0 + chunk_length v) t
            :: map (fun received => percentage received t)
                   (running_totals (0 + chunk_length v) cs))
    with (map (fun received => percentage received t) (running_totals 0 (v :: cs))).
  etransitivity;
    [apply (last_map_default (fun received => percentage received t)
              (running_totals 0 (v :: cs)) 0)|].
  cbv beta. rewrite last_running_totals by discriminate.
  rewrite Hsum. cbn [Z.add]. apply percentage_full. exact Ht.
Qed.

End App.

(* ===================================================================== *)
(** ** Concrete runs, with [whatwg_pathname] for the platform's parser    *)
(* ===================================================================== *)

(** X24 at [https://x.test/clip.MP4] and at [https://x.test/clip]. *)
Lemma getMediaType_by_extension_witness :
  Whatwg.whatwg_pathname "https://x.test/clip.MP4" = Some "/clip.MP4" /\
  getMediaType Whatwg.whatwg_pathname "https://x.test/clip.MP4" = Normal video /\
  getMediaType Whatwg.whatwg_pathname "https://x.test/clip" = Normal image.
Proof.
  split; [reflexivity|]. split.
  - destruct (getMediaType_by_extension Whatwg.whatwg_pathname "https://x.test/clip.MP4" "/clip.MP4" eq_refl)
      as (_ & Hvideo & _).
    apply Hvideo. simpl. tauto.
  - destruct (getMediaType_by_extension Whatwg.whatwg_pathname "https://x.test/clip" "/clip" eq_refl)
      as (_ & _ & _ & Hsegment).
    exact (Hsegment eq_refl).
Defined.

(** C1 at the string [not a url]. *)
Lemma generateFilename_malformed_throws_witness :
  Whatwg.whatwg_pathname "not a url" = None /\
  generateFilename Whatwg.whatwg_pathname 1700000000000 "not a url" = Throw TypeError.
Proof.
  split; [reflexivity|].
  apply (generateFilename_malformed_throws Whatwg.whatwg_pathname 1700000000000 "not a url").
  reflexivity.
Defined.

(** C8 at [https://x.test/clip]: the filename is [clip./clip], not
    [clip.]. *)
Lemma generateFilename_dotless_path_witness :
  Whatwg.whatwg_pathname "https://x.test/clip" = Some "/clip" /\
  JS.includes "/clip" "." = false /\
  "/clip" <> "" /\
  generateFilename Whatwg.whatwg_pathname 0 "https://x.test/clip" = Normal "clip./clip" /\
  generateFilename Whatwg.whatwg_pathname 0 "https://x.test/clip" <> Normal "clip.".
Proof.
  assert (Hne : "/clip" <> "") by discriminate.
  split; [reflexivity|]. split; [reflexivity|]. split; [exact Hne|].
  exact (generateFilename_dotless_path Whatwg.whatwg_pathname 0 "https://x.test/clip" "/clip"
           eq_refl eq_refl Hne).
Defined.

(** C5 at [addMediaItem("foo")] on the empty store. *)
Lemma addMediaItem_malformed_throws_witness :
  JS.is_empty (JS.trim "foo") = false /\
  already_queued (JS.trim "foo") (mediaItems initialState) = false /\
  Whatwg.whatwg_pathname (JS.trim "foo") = None /\
  addMediaItem Whatwg.whatwg_pathname 1 1 "foo" (mkWorld initialState [])
  = (Throw TypeError, mkWorld initialState []).
Proof.
  split; [reflexivity|]. split; [reflexivity|]. split; [reflexivity|].
  apply (addMediaItem_malformed_throws Whatwg.whatwg_pathname 1 1 "foo" (mkWorld initialState []));
    reflexivity.
Defined.


(** C3 at item A with a read that rejects after 4 of 10 bytes: the
    progress stays at 40. *)
Lemma downloadFile_failure_witness :
  lookup "1" (mediaItems Sample.store) = Some Sample.itemA /\
  transfer_fails Sample.env_broken /\
  let w := snd (run (downloadFile Sample.env_broken Sample.itemA) Sample.store) in
  map MediaItem.progress (item_trace "1" (committed (log w)))
  = [Some 0%Q; Some 40%Q; Some 40%Q] /\
  downloadHistory (state w) = [].
Proof.
  assert (Hfails : transfer_fails Sample.env_broken).
  { eapply fails_read; reflexivity. }
  split; [reflexivity|]. split; [exact Hfails|].
  destruct (downloadFile_failure Sample.env_broken Sample.itemA Sample.store
              eq_refl Hfails) as (_ & _ & Hprogress & _ & _ & Hhistory).
  split; [exact Hprogress | exact Hhistory].
Defined.

(** C10 at the transfer of 4 + 6 bytes of 10. *)
Lemma progress_while_downloading_witness :
  lookup "1" (mediaItems Sample.store) = Some Sample.itemA /\
  let w := snd (run (downloadFile Sample.env_ok Sample.itemA) Sample.store) in
  let shown := downloading_progress (item_trace "1" (committed (log w))) in
  StronglySorted Qle shown /\ Forall (fun p => (p <= 100)%Q) shown.
Proof.
  split; [reflexivity|].
  destruct (progress_while_downloading Sample.env_ok Sample.itemA Sample.itemA
              Sample.store eq_refl) as (_ & Hsorted & Hbound & _).
  split; [exact Hsorted|].
  apply Hbound. intros t Ht. injection Ht as <-. discriminate.
Defined.

(** C10, the counterexample: ten bytes declared and twenty delivered
    show a progress of 200 while the item is downloading. *)
Lemma progress_exceeds_100 :
  let w := snd (run (downloadFile Sample.env_longer Sample.itemA) Sample.store) in
  let shown := downloading_progress (item_trace "1" (committed (log w))) in
  shown = [0%Q; 200%Q] /\
  ~ Forall (fun p => (0 <= p)%Q /\ (p <= 100)%Q) shown.
Proof.
  split; [reflexivity|].
  intros H. change (Forall (fun p => (0 <= p)%Q /\ (p <= 100)%Q) [0%Q; 200%Q]) in H.
  inversion H as [|? ? _ H']; subst. inversion H' as [|? ? [_ Hle] _]; subst.
  apply Hle. reflexivity.
Qed.

(** C2 at sixty successful downloads from the initial state. *)
Lemma history_capped_most_recent_first_witness :
  reachable Whatwg.whatwg_pathname initialState /\
  Forall (fun r => transfer_succeeds (fst r) = true) Sample.sixty_runs /\
  List.length Sample.sixty_runs = 60%nat /\
  List.length (downloadHistory (run_downloads Whatwg.whatwg_pathname Sample.sixty_runs initialState))
  = 50%nat.
Proof.
  assert (Hall : Forall (fun r => transfer_succeeds (fst r) = true) Sample.sixty_runs).
  { apply Forall_forall. intros r Hr. apply in_map_iff in Hr.
    destruct Hr as (k & <- & _). reflexivity. }
  split; [apply reachable_init|]. split; [exact Hall|]. split; [reflexivity|].
  destruct (history_capped_most_recent_first Whatwg.whatwg_pathname Sample.sixty_runs initialState
              (reachable_init Whatwg.whatwg_pathname) Hall eq_refl) as (_ & _ & _ & _ & Hlen).
  exact Hlen.
Defined.

(** C9 at a successful download of item A. *)
Lemma history_mutations_witness :
  DownloadFile Sample.env_ok Sample.itemA <> ClearHistory /\
  bounded_appends
    (downloadHistory Sample.store)
    (downloadHistory (step Whatwg.whatwg_pathname (DownloadFile Sample.env_ok Sample.itemA) Sample.store)).
Proof.
  assert (Hne : DownloadFile Sample.env_ok Sample.itemA <> ClearHistory) by discriminate.
  split; [exact Hne|].
  destruct (history_mutations Whatwg.whatwg_pathname (DownloadFile Sample.env_ok Sample.itemA) Sample.store)
    as [_ Hkeep].
  exact (proj1 (Hkeep Hne)).
Defined.

(** C9, the counterexample: after adding and downloading one item the
    log holds its entry; [clearHistory] then leaves the empty log, which
    no sequence of bounded pushes yields. *)
Lemma clearHistory_is_no_append :
  let s1 := step Whatwg.whatwg_pathname (AddMediaItem 1 1 "https://x.test/a.png") initialState in
  let s2 := step Whatwg.whatwg_pathname (DownloadFile Sample.env_ok Sample.itemA) s1 in
  let s3 := step Whatwg.whatwg_pathname ClearHistory s2 in
  reachable Whatwg.whatwg_pathname s2 /\
  mediaItems s1 = [Sample.itemA] /\
  downloadHistory s2 = [history_entry Sample.env_ok Sample.itemA] /\
  downloadHistory s3 = [] /\
  ~ bounded_appends (downloadHistory s2) (downloadHistory s3).
Proof.
  intros s1 s2 s3.
  split; [do 2 apply reachable_step; apply reachable_init|].
  split; [reflexivity|]. split; [reflexivity|]. split; [reflexivity|].
  intros H. apply bounded_appends_nonempty in H.
  - apply H. reflexivity.
  - discriminate.
Qed.


(* ===================================================================== *)
(** ** Concrete runs for the further properties                           *)
(* ===================================================================== *)

(** X2 at [https://x.test/pic.JPG]. *)
Lemma getFileExtension_dotless_lowercase_witness :
  Whatwg.whatwg_pathname "https://x.test/pic.JPG" = Some "/pic.JPG" /\
  exists ext,
    getFileExtension Whatwg.whatwg_pathname "https://x.test/pic.JPG" = Normal ext
    /\ JS.includes ext "." = false
    /\ JS.toLowerCase ext = ext.
Proof.
  split; [reflexivity|].
  exact (getFileExtension_dotless_lowercase Whatwg.whatwg_pathname
           "https://x.test/pic.JPG" "/pic.JPG" eq_refl).
Defined.

(** X3 at [https://x.test/pic.JPG]: the filename is [pic.JPG]. *)
Lemma generateFilename_keeps_dotted_segment_witness :
  Whatwg.whatwg_pathname "https://x.test/pic.JPG" = Some "/pic.JPG" /\
  JS.includes (last_segment "/pic.JPG") "." = true /\
  generateFilename Whatwg.whatwg_pathname 0 "https://x.test/pic.JPG" = Normal "pic.JPG".
Proof.
  split; [reflexivity|]. split; [reflexivity|].
  exact (generateFilename_keeps_dotted_segment Whatwg.whatwg_pathname 0
           "https://x.test/pic.JPG" "/pic.JPG" eq_refl eq_refl).
Defined.

(** X4 at [https://x.test/clip]. *)
Lemma generateFilename_has_dot_witness :
  generateFilename Whatwg.whatwg_pathname 0 "https://x.test/clip" = Normal "clip./clip" /\
  JS.includes "clip./clip" "." = true /\ "clip./clip" <> "".
Proof.
  split; [reflexivity|].
  exact (generateFilename_has_dot Whatwg.whatwg_pathname 0 "https://x.test/clip"
           "clip./clip" eq_refl).
Defined.

(** X5 at a string of three spaces. *)
Lemma addMediaItem_ignores_blank_and_queued_witness :
  blank "   " = true /\
  run (addMediaItem Whatwg.whatwg_pathname 1 1 "   ") Sample.store
  = (Normal tt, mkWorld Sample.store []).
Proof.
  split; [reflexivity|].
  apply (addMediaItem_ignores_blank_and_queued Whatwg.whatwg_pathname 1 1 "   " Sample.store).
  left. reflexivity.
Defined.

(** X6 at [ https://x.test/d.webm ] on the sample store. *)
Lemma addMediaItem_appends_one_witness :
  JS.trim " https://x.test/d.webm " <> "" /\
  ~ In (JS.trim " https://x.test/d.webm ") (map MediaItem.url (mediaItems Sample.store)) /\
  Whatwg.whatwg_pathname (JS.trim " https://x.test/d.webm ") = Some "/d.webm" /\
  fst (run (addMediaItem Whatwg.whatwg_pathname 5 5 " https://x.test/d.webm ") Sample.store)
  = Normal tt.
Proof.
  assert (Hne : JS.trim " https://x.test/d.webm " <> "") by discriminate.
  assert (Hfresh : ~ In (JS.trim " https://x.test/d.webm ")
                        (map MediaItem.url (mediaItems Sample.store))).
  { simpl. intros [H | [H | [H | []]]]; discriminate. }
  split; [exact Hne|]. split; [exact Hfresh|]. split; [reflexivity|].
  exact (proj1 (addMediaItem_appends_one Whatwg.whatwg_pathname 5 5
                  " https://x.test/d.webm " "/d.webm" Sample.store Hne Hfresh eq_refl)).
Defined.

(** X11 after one addition. *)
Lemma reachable_items_derived_witness :
  let s := step Whatwg.whatwg_pathname (AddMediaItem 1 1 "https://x.test/a.png") initialState in
  reachable Whatwg.whatwg_pathname s /\
  Forall (derived Whatwg.whatwg_pathname) (mediaItems s).
Proof.
  intros s.
  assert (Hs : reachable Whatwg.whatwg_pathname s)
    by (apply reachable_step, reachable_init).
  split; [exact Hs | exact (reachable_items_derived Whatwg.whatwg_pathname s Hs)].
Defined.

(** X15 at an item that is not in the sample store. *)
Lemma downloadFile_removed_item_witness :
  lookup "9" (mediaItems Sample.store) = None /\
  let w := snd (run (downloadFile Sample.env_ok Sample.itemGone) Sample.store) in
  mediaItems (state w) = mediaItems Sample.store /\
  List.length (downloadHistory (state w)) = 1%nat.
Proof.
  split; [reflexivity|].
  destruct (downloadFile_removed_item Sample.env_ok Sample.itemGone Sample.store eq_refl)
    as (_ & Hitems & Hhistory).
  split; [exact Hitems|]. cbv zeta in Hhistory. rewrite Hhistory. reflexivity.
Defined.

(** X19 at the sample store: of the two runs one succeeds. *)
Lemma downloadAll_history_witness :
  (List.length (downloadHistory Sample.store) <= 50)%nat /\
  history_pushes (log (snd (run (downloadAll Sample.envs) Sample.store))) = 1%nat.
Proof.
  assert (Hlen : (List.length (downloadHistory Sample.store) <= 50)%nat)
    by (apply Nat.le_0_l).
  split; [exact Hlen|].
  exact (proj1 (downloadAll_history Sample.envs Sample.store Hlen)).
Defined.

(** X23 at the download of the pending item of a queue that also holds a
    completed one. *)
Lemma terminal_items_only_leave_witness :
  NoDup (map MediaItem.id (mediaItems Sample.queue_with_completed)) /\
  offered Sample.queue_with_completed (DownloadFile Sample.env_ok Sample.itemA) /\
  In Sample.itemD (mediaItems Sample.queue_with_completed) /\
  terminal (MediaItem.status Sample.itemD) /\
  (In Sample.itemD
      (mediaItems (step Whatwg.whatwg_pathname (DownloadFile Sample.env_ok Sample.itemA)
                        Sample.queue_with_completed))
   \/ DownloadFile Sample.env_ok Sample.itemA = RemoveMediaItem (MediaItem.id Sample.itemD)
   \/ (DownloadFile Sample.env_ok Sample.itemA = ClearCompleted
       /\ MediaItem.status Sample.itemD = completed)).
Proof.
  assert (Hnd : NoDup (map MediaItem.id (mediaItems Sample.queue_with_completed))).
  { repeat constructor; simpl; intuition discriminate. }
  assert (Hoff : offered Sample.queue_with_completed
                   (DownloadFile Sample.env_ok Sample.itemA)).
  { split; [left; reflexivity | reflexivity]. }
  assert (Hin : In Sample.itemD (mediaItems Sample.queue_with_completed)).
  { right. left. reflexivity. }
  assert (Hterm : terminal (MediaItem.status Sample.itemD)) by (left; reflexivity).
  split; [exact Hnd|]. split; [exact Hoff|]. split; [exact Hin|]. split; [exact Hterm|].
  exact (terminal_items_only_leave Whatwg.whatwg_pathname
           (DownloadFile Sample.env_ok Sample.itemA) Sample.queue_with_completed
           Sample.itemD Hnd Hoff Hin Hterm).
Defined.

(* ===================================================================== *)
(** ** Concrete runs for the dotless path, equal ids and stale renders    *)
(* ===================================================================== *)

(** C6 at [x:mp4]: the path [mp4] has no dot, and the answer is video. *)
Lemma getMediaType_dotless_path_video_witness :
  Whatwg.whatwg_pathname "x:mp4" = Some "mp4" /\
  JS.includes "mp4" "." = false /\
  In (JS.toLowerCase "mp4") videoExts /\
  segment_extension "mp4" = None /\
  getMediaType Whatwg.whatwg_pathname "x:mp4" = Normal video.
Proof.
  assert (Hin : In (JS.toLowerCase "mp4") videoExts) by (left; reflexivity).
  split; [reflexivity|]. split; [reflexivity|]. split; [exact Hin|].
  destruct (getMediaType_dotless_path_video Whatwg.whatwg_pathname "x:mp4" "mp4"
              eq_refl eq_refl Hin) as (Hnone & _ & Hvideo).
  split; [exact Hnone | exact Hvideo].
Defined.


(** X7 at [https://x.test/d.webm] on the sample store. *)
Lemma addMediaItem_twice_by_render_witness :
  JS.trim "https://x.test/d.webm" <> "" /\
  ~ In (JS.trim "https://x.test/d.webm")
       (map MediaItem.url (mediaItems (state (mkWorld Sample.store [])))) /\
  Whatwg.whatwg_pathname (JS.trim "https://x.test/d.webm") = Some "/d.webm" /\
  let rendered := mediaItems Sample.store in
  let w1 := snd (addMediaItem_from Whatwg.whatwg_pathname rendered 5 5
                   "https://x.test/d.webm" (mkWorld Sample.store [])) in
  addMediaItem_from Whatwg.whatwg_pathname (mediaItems (state w1)) 6 6
    "https://x.test/d.webm" w1 = (Normal tt, w1).
Proof.
  assert (Hne : JS.trim "https://x.test/d.webm" <> "") by discriminate.
  assert (Hfresh : ~ In (JS.trim "https://x.test/d.webm")
                        (map MediaItem.url (mediaItems (state (mkWorld Sample.store []))))).
  { simpl. intros [H | [H | [H | []]]]; discriminate. }
  split; [exact Hne|]. split; [exact Hfresh|]. split; [reflexivity|].
  exact (proj2 (addMediaItem_twice_by_render Whatwg.whatwg_pathname 5 5 6 6
                  "https://x.test/d.webm" "/d.webm" (mkWorld Sample.store [])
                  Hne Hfresh eq_refl)).
Defined.

(** X10 at the addition of a url to the sample store. *)
Lemma step_keeps_urls_distinct_witness :
  NoDup (map MediaItem.url (mediaItems Sample.store)) /\
  NoDup (map MediaItem.url
           (mediaItems (step Whatwg.whatwg_pathname
                          (AddMediaItem 5 5 "https://x.test/d.webm") Sample.store))).
Proof.
  assert (Hnd : NoDup (map MediaItem.url (mediaItems Sample.store))).
  { repeat constructor; simpl; intuition discriminate. }
  split; [exact Hnd|].
  exact (step_keeps_urls_distinct Whatwg.whatwg_pathname
           (AddMediaItem 5 5 "https://x.test/d.webm") Sample.store Hnd).
Defined.

(** X12 at a failing run of the completed item of a queue. *)
Lemma downloadFile_leaves_items_at_rest_witness :
  let w := snd (run (downloadFile Sample.env_404 Sample.itemD) Sample.queue_with_completed) in
  let i := MediaItem.with_progress (MediaItem.with_status Sample.itemD error) 0 in
  In i (mediaItems (state w)) /\
  MediaItem.id i = MediaItem.id Sample.itemD /\
  MediaItem.status i = error /\ settled i.
Proof.
  intros w i.
  assert (Hin : In i (mediaItems (state w))) by (right; left; reflexivity).
  split; [exact Hin|]. split; [reflexivity|].
  exact (downloadFile_leaves_items_at_rest Sample.env_404 Sample.itemD i
           Sample.queue_with_completed Hin eq_refl).
Defined.

(** X16 at the transfer of 4 + 6 bytes of 10: the values shown are 0, 40
    and 100. *)
Lemma progress_tracks_received_witness :
  lookup "1" (mediaItems Sample.store) = Some Sample.itemA /\
  total_of (Some "10") = Some 10 /\
  0 < 10 /\
  let w := snd (run (downloadFile Sample.env_ok Sample.itemA) Sample.store) in
  let shown := downloading_progress (item_trace "1" (committed (log w))) in
  shown = [0%Q; 40%Q; 100%Q] /\ last shown 0%Q = 100%Q.
Proof.
  assert (Hpos : 0 < 10) by reflexivity.
  split; [reflexivity|]. split; [reflexivity|]. split; [exact Hpos|].
  destruct (progress_tracks_received Sample.env_ok Sample.itemA Sample.itemA Sample.store
              (mkResponse 200 (Some "10")
                 (Some (mkBody [Sample.bytes 4; Sample.bytes 6] EndOfStream)))
              (mkBody [Sample.bytes 4; Sample.bytes 6] EndOfStream) 10
              eq_refl eq_refl eq_refl eq_refl eq_refl Hpos) as [Hshown Hlast].
  split; [exact Hshown|]. apply Hlast; [discriminate | reflexivity].
Defined.
